(** * aws-dummy-backend: the IAM-authenticated connection core of [index.js]

    A shallow embedding of [src/index.js]: the token provider
    ([getAuthToken]), the connection factory ([getConnection]), the manual
    idle pool ([activeConnections], [getPoolConnection],
    [releaseConnection]) and the two HTTP handlers ([/health], [/students]).

    The program is effectful JavaScript.  Its module-level state and the
    services it talks to (the AWS SDK, the MariaDB driver) are gathered in a
    [World]; every function of the source becomes a computation in a small
    state-and-exception monad over that world.  Calls that leave the program
    are recorded in a trace, so that statements such as "no token was
    requested" or "the connection was closed" are statements about the
    trace. *)

From Stdlib Require Import List String Ascii Bool ZArith Lia Arith.
Import ListNotations.

Local Open Scope string_scope.
Local Open Scope list_scope.

Set Implicit Arguments.

(* ------------------------------------------------------------------ *)
(** ** JavaScript values                                                *)
(* ------------------------------------------------------------------ *)

Module Js.

(** Identity of a driver connection object. *)
Definition ConnId := nat.

(** The values that flow through [conn] variables and through the pool
    array: [undefined] (an unassigned [let conn]), [null], or a reference to
    a connection object. *)
Inductive Val : Type :=
| Undefined
| Null
| Conn (c : ConnId).

(** JavaScript truthiness, as used by [if (conn)] and [conn && ...]. *)
Definition truthy (v : Val) : bool :=
  match v with
  | Undefined | Null => false
  | Conn _ => true
  end.

(** What the program catches: an [Error] object, as the SDK and the driver
    reject with.  The program inspects [err.name], [err.message] (a string
    on every [Error], possibly empty) and [err.code] (set by the driver
    only). *)
Record Error : Type := mkError {
  name : string;
  message : string;
  code : option string
}.

(** [new Error(msg)]. *)
Definition new_Error (msg : string) : Error :=
  {| name := "Error"; message := msg; code := None |}.

(** A non-empty string is truthy ([err.message && ...]). *)
Definition truthy_string (s : string) : bool :=
  match s with
  | EmptyString => false
  | String _ _ => true
  end.

(** [hay.includes(needle)]: does [needle] occur in [hay]? *)
Fixpoint includes (hay needle : string) : bool :=
  String.prefix needle hay
  || match hay with
     | EmptyString => false
     | String _ hay' => includes hay' needle
     end.

(** [err.code === s]; an absent code is [undefined] and equals no string. *)
Definition code_is (err : Error) (s : string) : bool :=
  match code err with
  | Some c => String.eqb c s
  | None => false
  end.

(** [a || b] on numbers: [0] is the falsy number. *)
Definition or_num (a b : Z) : Z := if (a =? 0)%Z then b else a.

(** How a statement or call finishes: normally with a value, or by
    throwing. *)
Inductive Completion (A : Type) : Type :=
| Normal (a : A)
| Throw (e : Error).

Arguments Throw {A} e.

(** An integer column as the driver hands it over: a JavaScript number,
    or a [BigInt] (what the driver returns for values it cannot hold in a
    number, such as BIGINT columns). *)
Inductive Integer : Type :=
| Number (z : Z)
| BigInt (z : Z).

Definition is_BigInt (i : Integer) : bool :=
  match i with
  | Number _ => false
  | BigInt _ => true
  end.

(** [Array.prototype.pop]: removes and returns the last element; on an
    empty array it returns [undefined] and leaves the array empty. *)
Definition pop (l : list Val) : Val * list Val :=
  (last l Undefined, removelast l).

(** [Array.prototype.push]: appends at the end. *)
Definition push (A : Type) (l : list A) (x : A) : list A := l ++ [x].

End Js.

Import Js.

(* ------------------------------------------------------------------ *)
(** ** Configuration                                                    *)
(* ------------------------------------------------------------------ *)

(** The environment variables the program reads.  [DB_PORT] holds the
    result of [parseInt(process.env.DB_PORT, 10)], [None] standing for
    [NaN]. *)
Record ProcessEnv : Type := {
  DB_HOST : option string;
  DB_USER : option string;
  DB_NAME : option string;
  DB_PORT : option Z;
  AWS_REGION : option string
}.

Record DbConfig : Type := {
  host : option string;
  user : option string;
  database : option string;
  port : Z;
  connectionLimit : Z
}.

(** [const dbConfig = { host: ..., user: ..., database: ...,
      port: parseInt(process.env.DB_PORT, 10) || 3306, connectionLimit: 5 }] *)
Definition dbConfig (penv : ProcessEnv) : DbConfig :=
  {| host := DB_HOST penv;
     user := DB_USER penv;
     database := DB_NAME penv;
     port := match DB_PORT penv with
             | Some p => or_num p 3306
             | None => 3306
             end;
     connectionLimit := 5 |}.

(* ------------------------------------------------------------------ *)
(** ** The world: program state and the services around it              *)
(* ------------------------------------------------------------------ *)

(** The argument of [rdsClient.generateAuthenticationToken]. *)
Record TokenRequest : Type := {
  region : option string;
  hostname : option string;
  req_port : Z;
  username : option string
}.

(** A row of [SELECT id, name, email FROM students]. *)
Record Student : Type := {
  student_id : Integer;
  student_name : string;
  email : string
}.

(** Calls that leave the program, in the order they happen. *)
Inductive Event : Type :=
| EvGenerateAuthenticationToken (r : TokenRequest)
| EvCreateConnection (password : string)
| EvIsValid (c : ConnId)
| EvEnd (c : ConnId)
| EvPing (c : ConnId)
| EvQuery (c : ConnId) (sql : string).

Record World : Type := {
  (** [process.env] *)
  penv : ProcessEnv;
  (** [let activeConnections = []], index 0 first *)
  activeConnections : list Val;
  (** what [conn.isValid()] answers for each connection object now *)
  valid : ConnId -> Completion bool;
  (** whether [conn.end()] throws synchronously *)
  end_throws : ConnId -> option Error;
  (** identity of the next connection object the driver allocates *)
  next_conn : ConnId;
  (** the SDK: outcome of the n-th token request *)
  sdk_token : nat -> TokenRequest -> Completion string;
  (** the driver: outcome of the n-th connection attempt ([None]: connected) *)
  driver_connect : nat -> string -> option Error;
  (** the driver: outcome of [conn.ping()] *)
  driver_ping : ConnId -> option Error;
  (** the driver: outcome of [conn.query(sql)] *)
  driver_query : ConnId -> string -> Completion (list Student);
  (** every outside call made so far, oldest first *)
  trace : list Event
}.

Definition is_token_event (e : Event) : bool :=
  match e with EvGenerateAuthenticationToken _ => true | _ => false end.

Definition is_connect_event (e : Event) : bool :=
  match e with EvCreateConnection _ => true | _ => false end.

(** Number of Token Provider invocations so far. *)
Definition token_calls (w : World) : nat :=
  List.length (filter is_token_event (trace w)).

Definition connect_calls (w : World) : nat :=
  List.length (filter is_connect_event (trace w)).

Definition log (e : Event) (w : World) : World :=
  {| penv := penv w; activeConnections := activeConnections w;
     valid := valid w; end_throws := end_throws w; next_conn := next_conn w;
     sdk_token := sdk_token w; driver_connect := driver_connect w;
     driver_ping := driver_ping w; driver_query := driver_query w;
     trace := trace w ++ [e] |}.

Definition set_pool (p : list Val) (w : World) : World :=
  {| penv := penv w; activeConnections := p;
     valid := valid w; end_throws := end_throws w; next_conn := next_conn w;
     sdk_token := sdk_token w; driver_connect := driver_connect w;
     driver_ping := driver_ping w; driver_query := driver_query w;
     trace := trace w |}.

Definition set_valid (c : ConnId) (b : Completion bool) (w : World) : World :=
  {| penv := penv w; activeConnections := activeConnections w;
     valid := fun c' => if Nat.eqb c' c then b else valid w c';
     end_throws := end_throws w; next_conn := next_conn w;
     sdk_token := sdk_token w; driver_connect := driver_connect w;
     driver_ping := driver_ping w; driver_query := driver_query w;
     trace := trace w |}.

Definition alloc_conn (w : World) : World :=
  {| penv := penv w; activeConnections := activeConnections w;
     valid := valid w; end_throws := end_throws w;
     next_conn := S (next_conn w);
     sdk_token := sdk_token w; driver_connect := driver_connect w;
     driver_ping := driver_ping w; driver_query := driver_query w;
     trace := trace w |}.

(* ------------------------------------------------------------------ *)
(** ** The monad of JavaScript computations                             *)
(* ------------------------------------------------------------------ *)

Definition M (A : Type) : Type := World -> Completion A * World.

Definition ret (A : Type) (a : A) : M A := fun w => (Normal a, w).

Definition throw (A : Type) (e : Error) : M A := fun w => (Throw e, w).

Arguments ret {A} a.
Arguments throw {A} e.

Definition bind (A B : Type) (m : M A) (k : A -> M B) : M B :=
  fun w =>
    match m w with
    | (Normal a, w') => k a w'
    | (Throw e, w') => (Throw e, w')
    end.

(** [try { body } catch (err) { handler }] *)
Definition try_catch (A : Type) (body : M A) (handler : Error -> M A) : M A :=
  fun w =>
    match body w with
    | (Normal a, w') => (Normal a, w')
    | (Throw e, w') => handler e w'
    end.

(** [try { body } finally { cleanup }]: the cleanup runs whatever happens;
    when it throws, its exception replaces the body's completion. *)
Definition try_finally (A : Type) (body : M A) (cleanup : M unit) : M A :=
  fun w =>
    match body w with
    | (r, w') =>
        match cleanup w' with
        | (Normal _, w'') => (r, w'')
        | (Throw e, w'') => (Throw e, w'')
        end
    end.

Declare Scope js_scope.
Delimit Scope js_scope with js.
Notation "x <- m ;; k" := (bind m (fun x => k))
  (at level 61, m at next level, right associativity) : js_scope.
Notation "m ;;; k" := (bind m (fun _ => k))
  (at level 61, right associativity) : js_scope.
Local Open Scope js_scope.

(* ------------------------------------------------------------------ *)
(** ** The outside calls                                                *)
(* ------------------------------------------------------------------ *)

(** [rdsClient.generateAuthenticationToken(req)] (awaited). *)
Definition generateAuthenticationToken (r : TokenRequest) : M string :=
  fun w =>
    (sdk_token w (token_calls w) r, log (EvGenerateAuthenticationToken r) w).

(** [mariadb.createConnection({...dbConfig, password})] (awaited): on
    success the driver hands out a new connection object. *)
Definition createConnection (password : string) : M ConnId :=
  fun w =>
    let w' := log (EvCreateConnection password) w in
    match driver_connect w (connect_calls w) password with
    | Some e => (Throw e, w')
    | None => (Normal (next_conn w), alloc_conn w')
    end.

(** [conn.isValid()] *)
Definition isValid (c : ConnId) : M bool :=
  fun w => (valid w c, log (EvIsValid c) w).

(** [conn.end()]: the connection is closed, so that it is not valid any
    more; the call itself may throw. *)
Definition conn_end (c : ConnId) : M unit :=
  fun w =>
    let w' := set_valid c (Normal false) (log (EvEnd c) w) in
    match end_throws w c with
    | Some e => (Throw e, w')
    | None => (Normal tt, w')
    end.

(** [await conn.ping()] *)
Definition ping (c : ConnId) : M unit :=
  fun w =>
    match driver_ping w c with
    | Some e => (Throw e, log (EvPing c) w)
    | None => (Normal tt, log (EvPing c) w)
    end.

(** [await conn.query(sql)] *)
Definition query (c : ConnId) (sql : string) : M (list Student) :=
  fun w => (driver_query w c sql, log (EvQuery c sql) w).

(** [try { conn.end(); } catch (e) { /* ignore close error */ }] *)
Definition end_ignoring_errors (c : ConnId) : M unit :=
  try_catch (conn_end c) (fun _ => ret tt).

(* ------------------------------------------------------------------ *)
(** ** Token Provider and connection factory                            *)
(* ------------------------------------------------------------------ *)

Definition permission_denied_message : string :=
  "Permission denied: EC2 instance doesn't have appropriate IAM role for RDS access".

Definition database_denied_message : string :=
  "Permission denied: Database access denied. Check EC2 IAM role permissions.".

(** The condition of the [catch] in [getAuthToken]. *)
Definition is_credentials_failure (err : Error) : bool :=
  String.eqb (name err) "CredentialsProviderError"
  || String.eqb (name err) "AccessDenied"
  || includes (message err) "credentials"
  || includes (message err) "permission"
  || includes (message err) "access denied".

(** The request [getAuthToken] builds from [process.env] and [dbConfig]. *)
Definition token_request (w : World) : TokenRequest :=
  {| region := AWS_REGION (penv w);
     hostname := host (dbConfig (penv w));
     req_port := port (dbConfig (penv w));
     username := user (dbConfig (penv w)) |}.

(** [async function getAuthToken()] *)
Definition getAuthToken : M string :=
  fun w =>
    try_catch
      (generateAuthenticationToken (token_request w))
      (fun err =>
         if is_credentials_failure err
         then throw (new_Error permission_denied_message)
         else throw err)
      w.

(** [async function getConnection()] *)
Definition getConnection : M ConnId :=
  try_catch
    (token <- getAuthToken ;;
     createConnection token)
    (fun err =>
       if truthy_string (message err)
          && includes (message err) "Permission denied"
       then throw err
       else if code_is err "ER_ACCESS_DENIED_ERROR"
       then throw (new_Error database_denied_message)
       else throw err).

(* ------------------------------------------------------------------ *)
(** ** The manual idle pool                                             *)
(* ------------------------------------------------------------------ *)

(** The body of [getPoolConnection], with the recursive call [self] left
    open. *)
Definition getPoolConnection_body (self : M Val) : M Val :=
  fun w =>
    if (0 <? List.length (activeConnections w))%nat then
      let (conn, rest) := pop (activeConnections w) in
      let w1 := set_pool rest w in
      match conn with
      | Conn c =>
          (* [conn] is truthy: [conn && !conn.isValid()] calls [isValid] *)
          (live <- isValid c ;;
           if negb live
           then end_ignoring_errors c ;;; self
           else ret conn) w1
      | Undefined | Null =>
          (* [conn && ...] is falsy at once *)
          (Normal conn, w1)
      end
    else
      (c <- getConnection ;; ret (Conn c)) w.

(** The recursion of [getPoolConnection] pops one element per call, so it
    is unrolled at most once more than the pool is long. *)
Fixpoint getPoolConnection_unroll (depth : nat) : M Val :=
  match depth with
  | O => throw (new_Error "Maximum call stack size exceeded")
  | S depth' => getPoolConnection_body (getPoolConnection_unroll depth')
  end.

(** [async function getPoolConnection()] *)
Definition getPoolConnection : M Val :=
  fun w => getPoolConnection_unroll (S (List.length (activeConnections w))) w.

(** [function releaseConnection(conn)] *)
Definition releaseConnection (conn : Val) : M unit :=
  match conn with
  | Conn c =>
      live <- isValid c ;;
      if live then
        fun w =>
          if (Z.of_nat (List.length (activeConnections w))
              <? or_num (connectionLimit (dbConfig (penv w))) 5)%Z
          then (Normal tt, set_pool (push (activeConnections w) conn) w)
          else end_ignoring_errors c w
      else ret tt
  | Undefined | Null => ret tt
  end.

(* ------------------------------------------------------------------ *)
(** ** The HTTP handlers                                                *)
(* ------------------------------------------------------------------ *)

(** What [res.send] is given. *)
Inductive Body : Type :=
| Text (s : string)
| StatusMessage (status message : string)
| Rows (rows : list Student)
| ErrorMessage (error : string).

Record Response : Type := {
  status : Z;
  body : Body
}.

(** [res.send(b)]: the status is 200 unless [res.status] was called. *)
Definition send (b : Body) : Response := {| status := 200; body := b |}.

(** [res.status(n).send(b)] *)
Definition status_send (n : Z) (b : Body) : Response :=
  {| status := n; body := b |}.

(** Whether [JSON.stringify(rows)] goes through: it throws on a [BigInt]. *)
Definition serializable (rows : list Student) : bool :=
  forallb (fun r => negb (is_BigInt (student_id r))) rows.

(** What [JSON.stringify] throws on a [BigInt]. *)
Definition stringify_error : Error :=
  {| name := "TypeError";
     message := "Do not know how to serialize a BigInt";
     code := None |}.

(** [res.send(rows)] on the array of rows: Express serialises it with
    [JSON.stringify] before anything is written, so the call either sends
    the rows or throws with nothing sent. *)
Definition send_rows (rows : list Student) : M Response :=
  if serializable rows
  then ret (send (Rows rows))
  else throw stringify_error.

(** [app.get('/health', ...)] *)
Definition health : M Response :=
  try_catch
    (conn <- getConnection ;;
     try_finally (ping conn) (end_ignoring_errors conn) ;;;
     ret (send (Text "I am OK. Database connection successful.")))
    (fun err =>
       if truthy_string (message err)
          && includes (message err) "Permission denied"
       then ret (status_send 403
                   (StatusMessage "ERROR" permission_denied_message))
       else ret (status_send 500
                   (StatusMessage "ERROR"
                      ("Health check failed: " ++ message err)))).

Definition students_sql : string := "SELECT id, name, email FROM students".

(** The [catch] block of the [/students] handler. *)
Definition students_catch (err : Error) : M Response :=
  if truthy_string (message err)
     && (includes (message err) "Permission denied"
         || includes (message err) "access denied"
         || code_is err "ER_ACCESS_DENIED_ERROR")
  then ret (status_send 403 (ErrorMessage permission_denied_message))
  else ret (status_send 500 (ErrorMessage "Failed to retrieve student data.")).

(** The [finally] block of the [/students] handler, for the value the local
    variable [conn] holds when it runs. *)
Definition students_finally (conn : Val) : M unit :=
  match conn with
  | Conn c => end_ignoring_errors c
  | Undefined | Null => ret tt
  end.

(** [app.get('/students', ...)].  The local [conn] is declared without a
    value and assigned when [getConnection] returns: it is [undefined] in
    the [finally] block exactly when [getConnection] threw. *)
Definition students : M Response :=
  fun w =>
    match getConnection w with
    | (Throw err, w1) =>
        try_finally (students_catch err) (students_finally Undefined) w1
    | (Normal c, w1) =>
        try_finally
          (try_catch
             (rows <- query c students_sql ;;
              send_rows rows)
             students_catch)
          (students_finally (Conn c))
          w1
    end.

(* ------------------------------------------------------------------ *)
(** ** Sequences of pool operations                                     *)
(* ------------------------------------------------------------------ *)

(** What can happen to the pool between two turns of the event loop: a
    caller acquires, a caller releases some value, or the network changes
    what a connection will answer to [isValid]. *)
Inductive Op : Type :=
| Acquire
| Release (conn : Val)
| Network (c : ConnId) (answer : Completion bool).

Definition step (o : Op) (w : World) : World :=
  match o with
  | Acquire => snd (getPoolConnection w)
  | Release conn => snd (releaseConnection conn w)
  | Network c answer => set_valid c answer w
  end.

Definition run (ops : list Op) (w : World) : World :=
  fold_left (fun w o => step o w) ops w.

(** The pool as the program starts: [let activeConnections = []]. *)
Definition initial (w : World) : Prop := activeConnections w = [].

(* ------------------------------------------------------------------ *)
(** ** Startup and shutdown                                             *)
(* ------------------------------------------------------------------ *)

(** The connection test run when the module loads:
    [getConnection().then(conn => { ...; try { conn.end(); } catch (e) {} })
                    .catch(err => { console.error(...); })]. *)
Definition startup : M unit :=
  try_catch
    (conn <- getConnection ;;
     end_ignoring_errors conn)
    (fun _ => ret tt).

(** How a promise settles. *)
Inductive Settled : Type :=
| Resolved
| Rejected (e : Error).

Definition is_resolved (s : Settled) : bool :=
  match s with
  | Resolved => true
  | Rejected _ => false
  end.

(** The callback the signal handlers map over the pool:
    [conn => { try { return conn.end(); } catch (e) { return Promise.resolve(); } }].
    [end_promise c] is how the promise returned by [conn.end()] settles when
    the call does not throw.  On [null] and [undefined], reading [conn.end]
    throws a [TypeError], which the [catch] turns into a resolved promise. *)
Definition close_on_signal (end_promise : ConnId -> Settled) (conn : Val)
  : World -> Settled * World :=
  fun w =>
    match conn with
    | Conn c =>
        match conn_end c w with
        | (Normal _, w') => (end_promise c, w')
        | (Throw _, w') => (Resolved, w')
        end
    | Undefined | Null => (Resolved, w)
    end.

(** [activeConnections.map(callback)], the callback run on each element in
    index order. *)
Fixpoint map_close_on_signal (end_promise : ConnId -> Settled)
    (conns : list Val) (w : World) : list Settled * World :=
  match conns with
  | [] => ([], w)
  | conn :: conns' =>
      let (p, w1) := close_on_signal end_promise conn w in
      let (ps, w2) := map_close_on_signal end_promise conns' w1 in
      (p :: ps, w2)
  end.

(** The [SIGTERM] and [SIGINT] handlers (they have the same body):
    [Promise.all(activeConnections.map(...)).then(() => process.exit(0))].
    The result is the status [process.exit] is called with, if it is called:
    [Promise.all] fulfils only when every promise does, and its rejection
    has no handler. *)
Definition on_signal (end_promise : ConnId -> Settled)
  : World -> option Z * World :=
  fun w =>
    let (ps, w') :=
      map_close_on_signal end_promise (activeConnections w) w in
    (if forallb is_resolved ps then Some 0%Z else None, w').

(* ------------------------------------------------------------------ *)
(** ** Vocabulary of the statements                                     *)
(* ------------------------------------------------------------------ *)

(** The world after a popped connection [c] failed its liveness check and
    was closed: [isValid] and [end] were called on it, in that order. *)
Definition discard (w : World) (c : ConnId) : World :=
  set_valid c (Normal false) (log (EvEnd c) (log (EvIsValid c) w)).

(** The same for several connections, in the order they were popped. *)
Definition discard_all (popped : list ConnId) (w : World) : World :=
  fold_left discard popped w.

(** The outside calls made for [discard_all popped]. *)
Definition discard_events (popped : list ConnId) : list Event :=
  flat_map (fun c => [EvIsValid c; EvEnd c]) popped.

(** A computation preserves an observation [f] of the world when [f] reads
    the same before and after, however the computation completes. *)
Definition preserves {X A : Type} (f : World -> X) (m : M A) : Prop :=
  forall w, f (snd (m w)) = f w.

(** A computation is blind to the pool when it runs the same whatever the
    pool holds, and leaves the pool as it found it. *)
Definition pool_blind {A : Type} (m : M A) : Prop :=
  forall p w, m (set_pool p w) = (fst (m w), set_pool p (snd (m w))).

(** The connection objects among the elements of an array, in order. *)
Fixpoint connections_of (l : list Val) : list ConnId :=
  match l with
  | [] => []
  | Conn c :: l' => c :: connections_of l'
  | _ :: l' => connections_of l'
  end.

(** How [getConnection] rethrows what it caught. *)
Definition rethrown (err : Error) : Error :=
  if includes (message err) "Permission denied" then err
  else if code_is err "ER_ACCESS_DENIED_ERROR"
       then new_Error database_denied_message
       else err.

(** Every connection object in the pool was handed out by the driver. *)
Definition pool_allocated (w : World) : Prop :=
  forall c, In (Conn c) (activeConnections w) -> c < next_conn w.

(** Callers release only objects they were handed: every connection object
    released in [ops] was allocated by the time it is released. *)
Fixpoint releases_allocated (ops : list Op) (w : World) : Prop :=
  match ops with
  | [] => True
  | o :: ops' =>
      match o with
      | Release (Conn c) => c < next_conn w
      | _ => True
      end
      /\ releases_allocated ops' (step o w)
  end.

(** The effective idle cap of [releaseConnection]:
    [dbConfig.connectionLimit || 5]. *)
Definition idle_cap (w : World) : Z :=
  or_num (connectionLimit (dbConfig (penv w))) 5.

(** What the [/health] handler attempts: a connection, then a ping on it. *)
Definition health_attempt (w : World) : Completion unit :=
  match getConnection w with
  | (Throw err, _) => Throw err
  | (Normal c, w1) => fst (ping c w1)
  end.

(** What the [/students] handler attempts in its [try]: a connection,
    then the query, then sending the rows. *)
Definition students_attempt (w : World) : Completion (list Student) :=
  match getConnection w with
  | (Throw err, _) => Throw err
  | (Normal c, w1) =>
      match fst (query c students_sql w1) with
      | Normal rows =>
          if serializable rows then Normal rows else Throw stringify_error
      | Throw err => Throw err
      end
  end.

(** The response table of [GET /health], following the specification. *)
Definition health_spec (attempt : Completion unit) : Response :=
  match attempt with
  | Normal _ =>
      {| status := 200;
         body := Text "I am OK. Database connection successful." |}
  | Throw err =>
      if includes (message err) "Permission denied"
      then {| status := 403;
              body := StatusMessage "ERROR" permission_denied_message |}
      else {| status := 500;
              body := StatusMessage "ERROR"
                        ("Health check failed: " ++ message err) |}
  end.

(** A failure the listing endpoint reports as a permission problem. *)
Definition permission_flavored (err : Error) : bool :=
  includes (message err) "Permission denied"
  || includes (message err) "access denied"
  || (negb (String.eqb (message err) "")
      && code_is err "ER_ACCESS_DENIED_ERROR").

(** The response table of [GET /students], following the specification. *)
Definition students_spec (attempt : Completion (list Student)) : Response :=
  match attempt with
  | Normal rows => {| status := 200; body := Rows rows |}
  | Throw err =>
      if permission_flavored err
      then {| status := 403; body := ErrorMessage permission_denied_message |}
      else {| status := 500;
              body := ErrorMessage "Failed to retrieve student data." |}
  end.

(* ------------------------------------------------------------------ *)
(** ** Sample worlds                                                    *)
(* ------------------------------------------------------------------ *)

Module Sample.

Definition env : ProcessEnv :=
  {| DB_HOST := Some "db.example.internal";
     DB_USER := Some "app_user";
     DB_NAME := Some "school";
     DB_PORT := None;
     AWS_REGION := Some "eu-west-1" |}.

Definition seeded : list Student :=
  [ {| student_id := Number 1; student_name := "John Doe"; email := "john@example.com" |};
    {| student_id := Number 2; student_name := "Jane Smith"; email := "jane@example.com" |};
    {| student_id := Number 3; student_name := "Bob Johnson"; email := "bob@example.com" |};
    {| student_id := Number 4; student_name := "Alice Williams"; email := "alice@example.com" |};
    {| student_id := Number 5; student_name := "Charlie Brown"; email := "charlie@example.com" |} ].

(** Everything works: tokens are issued, connections open, stay valid and
    answer queries with the seeded table. *)
Definition healthy (pool : list Val) (next : ConnId) : World :=
  {| penv := env;
     activeConnections := pool;
     valid := fun _ => Normal true;
     end_throws := fun _ => None;
     next_conn := next;
     sdk_token := fun _ _ => Normal "signed-token";
     driver_connect := fun _ _ => None;
     driver_ping := fun _ => None;
     driver_query := fun _ _ => Normal seeded;
     trace := [] |}.

(** As [healthy], but the connections listed in [dead] have lost their
    session and closing them throws. *)
Definition with_dead (dead : list ConnId) (pool : list Val) (next : ConnId)
  : World :=
  {| penv := env;
     activeConnections := pool;
     valid := fun c => Normal (negb (existsb (Nat.eqb c) dead));
     end_throws := fun c =>
       if existsb (Nat.eqb c) dead
       then Some (new_Error "socket has been ended by the other party")
       else None;
     next_conn := next;
     sdk_token := fun _ _ => Normal "signed-token";
     driver_connect := fun _ _ => None;
     driver_ping := fun _ => None;
     driver_query := fun _ _ => Normal seeded;
     trace := [] |}.

(** The identity service rejects with [err]. *)
Definition token_fails (err : Error) : World :=
  {| penv := env;
     activeConnections := [];
     valid := fun _ => Normal true;
     end_throws := fun _ => None;
     next_conn := 0;
     sdk_token := fun _ _ => Throw err;
     driver_connect := fun _ _ => None;
     driver_ping := fun _ => None;
     driver_query := fun _ _ => Normal seeded;
     trace := [] |}.

(** Tokens are issued but the driver fails to connect with [err]. *)
Definition connect_fails (err : Error) : World :=
  {| penv := env;
     activeConnections := [];
     valid := fun _ => Normal true;
     end_throws := fun _ => None;
     next_conn := 0;
     sdk_token := fun _ _ => Normal "signed-token";
     driver_connect := fun _ _ => Some err;
     driver_ping := fun _ => None;
     driver_query := fun _ _ => Normal seeded;
     trace := [] |}.

(** Connections open, but the query fails with [err] and closing throws. *)
Definition query_fails (err : Error) : World :=
  {| penv := env;
     activeConnections := [];
     valid := fun _ => Normal true;
     end_throws := fun _ => Some (new_Error "Cannot close");
     next_conn := 0;
     sdk_token := fun _ _ => Normal "signed-token";
     driver_connect := fun _ _ => None;
     driver_ping := fun _ => None;
     driver_query := fun _ _ => Throw err;
     trace := [] |}.

(** Everything works, but the table's ids come back as [BigInt]s. *)
Definition bigint_ids : World :=
  {| penv := env;
     activeConnections := [];
     valid := fun _ => Normal true;
     end_throws := fun _ => None;
     next_conn := 0;
     sdk_token := fun _ _ => Normal "signed-token";
     driver_connect := fun _ _ => None;
     driver_ping := fun _ => None;
     driver_query := fun _ _ =>
       Normal [ {| student_id := BigInt 1;
                   student_name := "John Doe";
                   email := "john@example.com" |} ];
     trace := [] |}.

(** The program just started, ten connection objects being in the hands
    of callers. *)
Definition started : World := healthy [] 10.

(** Seven connections are released, one is acquired, three more are
    released. *)
Definition busy : list Op :=
  map Release (map Conn [0; 1; 2; 3; 4; 5; 6])
  ++ [Acquire]
  ++ map Release (map Conn [7; 8; 9]).

End Sample.

(* ================================================================== *)
(** * Properties                                                        *)
(* ================================================================== *)

Unset Implicit Arguments.

(** Case analysis on every condition the goal branches on. *)
Ltac branches :=
  repeat match goal with
    | |- context [if ?b then _ else _] => destruct b eqn:?; cbn
    end.

(* ------------------------------------------------------------------ *)
(** ** Strings                                                          *)
(* ------------------------------------------------------------------ *)

Lemma prefix_iff (p s : string) :
  String.prefix p s = true <-> exists rest, s = (p ++ rest)%string.
Proof.
  revert s; induction p as [|a p IH]; intros s.
  - split; [intros _; exists s; reflexivity | destruct s; reflexivity].
  - destruct s as [|b s]; simpl.
    + split; [discriminate | intros [rest H]; discriminate].
    + destruct (Ascii.ascii_dec a b) as [->|Hab].
      * rewrite IH. split; intros [rest H]; exists rest.
        -- now rewrite H.
        -- now injection H.
      * split; [discriminate | intros [rest H]; injection H; congruence].
Qed.

(** [includes] is substring occurrence. *)
Lemma includes_iff (hay needle : string) :
  includes hay needle = true <->
  exists before after, hay = (before ++ needle ++ after)%string.
Proof.
  induction hay as [|a hay IH]; cbn [includes].
  - rewrite orb_false_r, prefix_iff. split.
    + intros [rest H]. exists "", rest. exact H.
    + intros [[|b before] [after H]]; simpl in H.
      * exists after; exact H.
      * discriminate.
  - rewrite orb_true_iff, prefix_iff, IH. split.
    + intros [[rest H] | [before [after H]]].
      * exists "", rest. exact H.
      * exists (String a before), after. simpl. now rewrite H.
    + intros [[|b before] [after H]]; simpl in H.
      * left. exists after. exact H.
      * right. exists before, after. now injection H.
Qed.

(* ------------------------------------------------------------------ *)
(** ** Frame facts                                                      *)
(* ------------------------------------------------------------------ *)

Section Preserves.

Context {X : Type} (f : World -> X).

Lemma preserves_ret (A : Type) (a : A) : preserves f (ret a).
Proof. intros w; reflexivity. Qed.

Lemma preserves_throw (A : Type) (e : Error) : preserves f (@throw A e).
Proof. intros w; reflexivity. Qed.

Lemma preserves_send_rows rows : preserves f (send_rows rows).
Proof.
  unfold send_rows. destruct (serializable rows);
    [apply preserves_ret | apply preserves_throw].
Qed.

Lemma preserves_bind (A B : Type) (m : M A) (k : A -> M B) :
  preserves f m -> (forall a, preserves f (k a)) -> preserves f (bind m k).
Proof.
  intros Hm Hk w. unfold bind. specialize (Hm w).
  destruct (m w) as [[a|e] w']; cbn in *.
  - now rewrite Hk.
  - exact Hm.
Qed.

Lemma preserves_try_catch (A : Type) (m : M A) (h : Error -> M A) :
  preserves f m -> (forall e, preserves f (h e)) ->
  preserves f (try_catch m h).
Proof.
  intros Hm Hh w. unfold try_catch. specialize (Hm w).
  destruct (m w) as [[a|e] w']; cbn in *.
  - exact Hm.
  - now rewrite Hh.
Qed.

Lemma preserves_try_finally (A : Type) (m : M A) (c : M unit) :
  preserves f m -> preserves f c -> preserves f (try_finally m c).
Proof.
  intros Hm Hc w. unfold try_finally. specialize (Hm w).
  destruct (m w) as [r w']; cbn in *. specialize (Hc w').
  destruct (c w') as [[u|e] w'']; cbn in *; congruence.
Qed.

(** An observation that ignores the liveness of connections, the
    allocation counter and, in the trace, everything but token requests
    is preserved by every call to the driver. *)
Hypothesis f_log : forall e w, is_token_event e = false -> f (log e w) = f w.
Hypothesis f_set_valid : forall c b w, f (set_valid c b w) = f w.
Hypothesis f_alloc : forall w, f (alloc_conn w) = f w.

Lemma preserves_isValid c : preserves f (isValid c).
Proof. intros w; now apply f_log. Qed.

Lemma preserves_conn_end c : preserves f (conn_end c).
Proof.
  intros w; unfold conn_end.
  destruct (end_throws w c); cbn; now rewrite f_set_valid, f_log.
Qed.

Lemma preserves_end_ignoring_errors c : preserves f (end_ignoring_errors c).
Proof.
  apply preserves_try_catch; [apply preserves_conn_end|].
  intros; apply preserves_ret.
Qed.

Lemma preserves_ping c : preserves f (ping c).
Proof.
  intros w; unfold ping; destruct (driver_ping w c); now apply f_log.
Qed.

Lemma preserves_query c sql : preserves f (query c sql).
Proof. intros w; now apply f_log. Qed.

Lemma preserves_createConnection t : preserves f (createConnection t).
Proof.
  intros w; unfold createConnection.
  destruct (driver_connect w (connect_calls w) t); cbn.
  - now apply f_log.
  - now rewrite f_alloc, f_log.
Qed.

Lemma preserves_students_catch e : preserves f (students_catch e).
Proof. unfold students_catch. destruct (_ && _); apply preserves_ret. Qed.

Lemma preserves_students_finally v : preserves f (students_finally v).
Proof.
  destruct v; [apply preserves_ret | apply preserves_ret |].
  apply preserves_end_ignoring_errors.
Qed.

(** If it ignores token requests as well, it is preserved by the token
    provider, the connection factory and both handlers. *)
Hypothesis f_token :
  forall r w, f (log (EvGenerateAuthenticationToken r) w) = f w.

Lemma preserves_getAuthToken : preserves f getAuthToken.
Proof.
  intros w. unfold getAuthToken, try_catch, generateAuthenticationToken.
  destruct (sdk_token w _ _) as [t|e]; [apply f_token|].
  destruct (is_credentials_failure e); apply f_token.
Qed.

Lemma preserves_getConnection : preserves f getConnection.
Proof.
  apply preserves_try_catch.
  - apply preserves_bind; [apply preserves_getAuthToken|].
    intros; apply preserves_createConnection.
  - intros e. destruct (_ && _); [apply preserves_throw|].
    destruct (code_is _ _); apply preserves_throw.
Qed.

Lemma preserves_health : preserves f health.
Proof.
  apply preserves_try_catch.
  - apply preserves_bind; [apply preserves_getConnection|]. intros c.
    apply preserves_bind; [|intros; apply preserves_ret].
    apply preserves_try_finally;
      [apply preserves_ping | apply preserves_end_ignoring_errors].
  - intros e. destruct (_ && _); apply preserves_ret.
Qed.

Lemma preserves_students : preserves f students.
Proof.
  intros w. unfold students.
  pose proof (preserves_getConnection w) as Hc.
  destruct (getConnection w) as [[c|e] w1]; cbn in Hc; rewrite <- Hc.
  - apply preserves_try_finally; [|apply preserves_students_finally].
    apply preserves_try_catch; [|apply preserves_students_catch].
    apply preserves_bind; [apply preserves_query|].
    intros; apply preserves_send_rows.
  - apply preserves_try_finally;
      [apply preserves_students_catch | apply preserves_students_finally].
Qed.

End Preserves.

(* ------------------------------------------------------------------ *)
(** ** The recursion of [getPoolConnection]                             *)
(* ------------------------------------------------------------------ *)

Lemma end_ignoring_errors_eq c w :
  end_ignoring_errors c w
  = (Normal tt, set_valid c (Normal false) (log (EvEnd c) w)).
Proof.
  unfold end_ignoring_errors, try_catch, conn_end.
  destruct (end_throws w c); reflexivity.
Qed.

Lemma pop_snoc (l : list Val) (v : Val) : pop (l ++ [v]) = (v, l).
Proof. unfold pop. now rewrite last_last, removelast_last. Qed.

Lemma body_empty self w :
  activeConnections w = [] ->
  getPoolConnection_body self w = (c <- getConnection ;; ret (Conn c)) w.
Proof. intros H. unfold getPoolConnection_body. now rewrite H. Qed.

Lemma body_snoc self w rest v :
  activeConnections w = rest ++ [v] ->
  getPoolConnection_body self w =
  match v with
  | Conn c =>
      (live <- isValid c ;;
       if negb live then end_ignoring_errors c ;;; self else ret v)
        (set_pool rest w)
  | Undefined | Null => (Normal v, set_pool rest w)
  end.
Proof.
  intros H. unfold getPoolConnection_body. rewrite H, pop_snoc.
  rewrite length_app, Nat.add_comm. simpl. destruct v; reflexivity.
Qed.

Lemma pool_cases (l : list Val) : l = [] \/ exists rest v, l = rest ++ [v].
Proof.
  destruct l as [|a l]; [now left | right].
  destruct (@exists_last _ (a :: l)) as [rest [x H]]; [discriminate|eauto].
Qed.

(** Unrolling deeper than the pool is long changes nothing. *)
Lemma unroll_enough (n : nat) : forall w,
  List.length (activeConnections w) < n ->
  getPoolConnection_unroll n w
  = getPoolConnection_unroll (S (List.length (activeConnections w))) w.
Proof.
  induction n as [|n IH]; intros w Hlen; [lia|].
  cbn [getPoolConnection_unroll].
  destruct (pool_cases (activeConnections w)) as [E|[rest [v E]]].
  - now rewrite !body_empty.
  - rewrite !(body_snoc _ _ _ _ E). destruct v as [| |c]; try reflexivity.
    unfold bind, isValid.
    destruct (valid (set_pool rest w) c) as [[|]|e]; cbn; try reflexivity.
    rewrite end_ignoring_errors_eq.
    rewrite E, length_app, Nat.add_comm in Hlen |- *. cbn in Hlen |- *.
    apply IH. cbn. lia.
Qed.

(** [getPoolConnection] satisfies the recursive equation of the source:
    the unrolling bound is never reached. *)
Lemma getPoolConnection_eq w :
  getPoolConnection w = getPoolConnection_body getPoolConnection w.
Proof.
  unfold getPoolConnection at 1. cbn [getPoolConnection_unroll].
  destruct (pool_cases (activeConnections w)) as [E|[rest [v E]]].
  - now rewrite !body_empty.
  - rewrite !(body_snoc _ _ _ _ E). destruct v as [| |c]; try reflexivity.
    unfold bind, isValid.
    destruct (valid (set_pool rest w) c) as [[|]|e]; cbn; try reflexivity.
    rewrite end_ignoring_errors_eq.
    unfold getPoolConnection. cbn [activeConnections set_valid log set_pool].
    rewrite E, length_app, Nat.add_comm. reflexivity.
Qed.

Lemma acquire_empty w :
  activeConnections w = [] ->
  getPoolConnection w = (c <- getConnection ;; ret (Conn c)) w.
Proof. intros E. now rewrite getPoolConnection_eq, body_empty. Qed.

Lemma acquire_falsy w rest v :
  activeConnections w = rest ++ [v] -> truthy v = false ->
  getPoolConnection w = (Normal v, set_pool rest w).
Proof.
  intros E Hv. rewrite getPoolConnection_eq, (body_snoc _ _ _ _ E).
  destruct v; [reflexivity | reflexivity | discriminate].
Qed.

Lemma acquire_live w rest c :
  activeConnections w = rest ++ [Conn c] -> valid w c = Normal true ->
  getPoolConnection w
  = (Normal (Conn c), log (EvIsValid c) (set_pool rest w)).
Proof.
  intros E Hv. rewrite getPoolConnection_eq, (body_snoc _ _ _ _ E).
  unfold bind, isValid. cbn [valid set_pool]. now rewrite Hv.
Qed.

Lemma acquire_dead w rest c :
  activeConnections w = rest ++ [Conn c] -> valid w c = Normal false ->
  getPoolConnection w = getPoolConnection (discard (set_pool rest w) c).
Proof.
  intros E Hv. rewrite getPoolConnection_eq, (body_snoc _ _ _ _ E).
  unfold bind, isValid. cbn [valid set_pool]. rewrite Hv. cbn [negb].
  now rewrite end_ignoring_errors_eq.
Qed.

Lemma acquire_check_throws w rest c e :
  activeConnections w = rest ++ [Conn c] -> valid w c = Throw e ->
  getPoolConnection w = (Throw e, log (EvIsValid c) (set_pool rest w)).
Proof.
  intros E Hv. rewrite getPoolConnection_eq, (body_snoc _ _ _ _ E).
  unfold bind, isValid. cbn [valid set_pool]. now rewrite Hv.
Qed.

(** Acquire only ever removes elements from the end of the pool. *)
Lemma acquire_pool_prefix (n : nat) : forall w,
  List.length (activeConnections w) = n ->
  exists popped,
    activeConnections w
    = activeConnections (snd (getPoolConnection w)) ++ popped.
Proof.
  induction n as [|n IH]; intros w Hlen.
  - apply length_zero_iff_nil in Hlen. rewrite (acquire_empty _ Hlen).
    exists []. rewrite app_nil_r. symmetry.
    apply (preserves_bind activeConnections _ _
             getConnection (fun c => ret (Conn c))).
    + now apply preserves_getConnection.
    + intros; apply preserves_ret.
  - destruct (pool_cases (activeConnections w)) as [E|[rest [v E]]].
    { rewrite E in Hlen; discriminate. }
    assert (Hrest : List.length rest = n).
    { rewrite E, length_app, Nat.add_comm in Hlen. cbn in Hlen. lia. }
    destruct v as [| |c].
    + rewrite (acquire_falsy _ _ _ E eq_refl). exists [Undefined]. exact E.
    + rewrite (acquire_falsy _ _ _ E eq_refl). exists [Null]. exact E.
    + destruct (valid w c) as [[|]|e] eqn:Hv.
      * rewrite (acquire_live _ _ _ E Hv). exists [Conn c]. exact E.
      * rewrite (acquire_dead _ _ _ E Hv).
        destruct (IH (discard (set_pool rest w) c) Hrest) as [popped Hp].
        exists (popped ++ [Conn c]). rewrite E, app_assoc. f_equal. exact Hp.
      * rewrite (acquire_check_throws _ _ _ _ E Hv). exists [Conn c]. exact E.
Qed.

Lemma acquire_pool_length w :
  List.length (activeConnections (snd (getPoolConnection w)))
  <= List.length (activeConnections w).
Proof.
  destruct (acquire_pool_prefix _ w eq_refl) as [popped H].
  apply (f_equal (@List.length Val)) in H. rewrite length_app in H. lia.
Qed.

(* ------------------------------------------------------------------ *)
(** ** The cases of [releaseConnection]                                 *)
(* ------------------------------------------------------------------ *)

Lemma idle_cap_is_5 w : idle_cap w = 5%Z.
Proof. reflexivity. Qed.

Lemma release_falsy v w :
  truthy v = false -> releaseConnection v w = (Normal tt, w).
Proof. destruct v; [reflexivity | reflexivity | discriminate]. Qed.

Lemma release_not_live c w :
  valid w c = Normal false ->
  releaseConnection (Conn c) w = (Normal tt, log (EvIsValid c) w).
Proof.
  intros Hv. unfold releaseConnection, bind, isValid. now rewrite Hv.
Qed.

Lemma release_check_throws c e w :
  valid w c = Throw e ->
  releaseConnection (Conn c) w = (Throw e, log (EvIsValid c) w).
Proof.
  intros Hv. unfold releaseConnection, bind, isValid. now rewrite Hv.
Qed.

Lemma release_live_under_cap c w :
  valid w c = Normal true ->
  (Z.of_nat (List.length (activeConnections w)) < idle_cap w)%Z ->
  releaseConnection (Conn c) w
  = (Normal tt,
     set_pool (activeConnections w ++ [Conn c]) (log (EvIsValid c) w)).
Proof.
  intros Hv Hcap. unfold releaseConnection, bind, isValid. rewrite Hv.
  cbn [activeConnections log penv]. fold (idle_cap w).
  apply Z.ltb_lt in Hcap. now rewrite Hcap.
Qed.

Lemma release_live_at_cap c w :
  valid w c = Normal true ->
  (idle_cap w <= Z.of_nat (List.length (activeConnections w)))%Z ->
  releaseConnection (Conn c) w
  = (Normal tt,
     set_valid c (Normal false) (log (EvEnd c) (log (EvIsValid c) w))).
Proof.
  intros Hv Hcap. unfold releaseConnection, bind, isValid. rewrite Hv.
  cbn [activeConnections log penv]. fold (idle_cap w).
  apply Z.ltb_ge in Hcap. rewrite Hcap. apply end_ignoring_errors_eq.
Qed.

(** One Release keeps the pool within the cap. *)
Lemma release_within_cap v w :
  (Z.of_nat (List.length (activeConnections w)) <= idle_cap w)%Z ->
  (Z.of_nat (List.length (activeConnections (snd (releaseConnection v w))))
   <= idle_cap w)%Z.
Proof.
  intros Hle. destruct v as [| |c]; try exact Hle.
  destruct (valid w c) as [[|]|e] eqn:Hv.
  - destruct (Z.lt_ge_cases (Z.of_nat (List.length (activeConnections w)))
                (idle_cap w)) as [Hlt|Hge].
    + rewrite (release_live_under_cap _ _ Hv Hlt). cbn.
      rewrite length_app. cbn. rewrite idle_cap_is_5 in *. lia.
    + rewrite (release_live_at_cap _ _ Hv Hge). exact Hle.
  - rewrite (release_not_live _ _ Hv). exact Hle.
  - rewrite (release_check_throws _ _ _ Hv). exact Hle.
Qed.

Lemma step_within_cap o w :
  (Z.of_nat (List.length (activeConnections w)) <= 5)%Z ->
  (Z.of_nat (List.length (activeConnections (step o w))) <= 5)%Z.
Proof.
  intros Hle. destruct o as [|v|c b]; cbn [step].
  - pose proof (acquire_pool_length w). lia.
  - apply (release_within_cap v w). exact Hle.
  - exact Hle.
Qed.

Lemma run_within_cap ops : forall w,
  (Z.of_nat (List.length (activeConnections w)) <= 5)%Z ->
  (Z.of_nat (List.length (activeConnections (run ops w))) <= 5)%Z.
Proof.
  induction ops as [|o ops IH]; intros w Hle; [exact Hle|].
  cbn [run fold_left]. apply IH, step_within_cap, Hle.
Qed.

(* ------------------------------------------------------------------ *)
(** ** Counting outside calls                                           *)
(* ------------------------------------------------------------------ *)

Lemma token_calls_log e w :
  token_calls (log e w)
  = token_calls w + (if is_token_event e then 1 else 0).
Proof.
  unfold token_calls. cbn [trace log].
  rewrite filter_app, length_app. cbn. now destruct (is_token_event e).
Qed.

Lemma connect_calls_log e w :
  connect_calls (log e w)
  = connect_calls w + (if is_connect_event e then 1 else 0).
Proof.
  unfold connect_calls. cbn [trace log].
  rewrite filter_app, length_app. cbn. now destruct (is_connect_event e).
Qed.





(* ------------------------------------------------------------------ *)
(** ** Discarding dead connections                                      *)
(* ------------------------------------------------------------------ *)

Lemma set_pool_same w : set_pool (activeConnections w) w = w.
Proof. destruct w; reflexivity. Qed.

Lemma discard_all_trace popped : forall w,
  trace (discard_all popped w) = trace w ++ discard_events popped.
Proof.
  induction popped as [|c l IH]; intros w; cbn.
  - now rewrite app_nil_r.
  - unfold discard_all in IH. rewrite IH. cbn. now rewrite <- !app_assoc.
Qed.

Lemma discard_all_pool popped : forall w,
  activeConnections (discard_all popped w) = activeConnections w.
Proof.
  induction popped as [|c l IH]; intros w; cbn; [reflexivity|].
  unfold discard_all in IH. now rewrite IH.
Qed.

Lemma discard_all_valid_other popped c : forall w,
  ~ In c popped -> valid (discard_all popped w) c = valid w c.
Proof.
  induction popped as [|d l IH]; intros w Hc; cbn; [reflexivity|].
  unfold discard_all in IH. rewrite IH by (intros H; apply Hc; now right).
  cbn. destruct (Nat.eqb_spec c d) as [->|]; [|reflexivity].
  exfalso. apply Hc. now left.
Qed.

(** Acquire pops, checks and closes every dead connection on top of the
    pool, and then carries on with what is underneath. *)
Lemma acquire_discards popped : forall w rest,
  activeConnections w = rest ++ map Conn (rev popped) ->
  (forall c, In c popped -> valid w c = Normal false) ->
  getPoolConnection w = getPoolConnection (discard_all popped (set_pool rest w)).
Proof.
  induction popped as [|c l IH]; intros w rest E Hdead.
  - cbn in E. rewrite app_nil_r in E. subst rest. cbn.
    now rewrite set_pool_same.
  - cbn [rev] in E. rewrite map_app, app_assoc in E. cbn [map] in E.
    rewrite (acquire_dead _ _ _ E (Hdead c (or_introl eq_refl))).
    rewrite (IH _ rest).
    + reflexivity.
    + reflexivity.
    + intros d Hd. cbn. destruct (Nat.eqb d c); [reflexivity|].
      apply Hdead. now right.
Qed.

(** Where the value returned by Acquire comes from: it is a pooled
    connection that passed its liveness check, or the connection object
    the driver has just allocated. *)
Lemma getConnection_fresh w c :
  fst (getConnection w) = Normal c -> c = next_conn w.
Proof.
  unfold getConnection, try_catch, bind, getAuthToken, try_catch,
    generateAuthenticationToken, createConnection, throw.
  destruct (sdk_token w _ _) as [t|e].
  - cbn [driver_connect log next_conn].
    destruct (driver_connect w _ t) as [e|]; cbn; [|congruence].
    branches; discriminate.
  - branches; discriminate.
Qed.

Lemma acquire_origin (n : nat) : forall w c,
  List.length (activeConnections w) = n ->
  fst (getPoolConnection w) = Normal (Conn c) ->
  (In (Conn c) (activeConnections w) /\ valid w c = Normal true)
  \/ c = next_conn w.
Proof.
  induction n as [|n IH]; intros w c Hlen Hr.
  - apply length_zero_iff_nil in Hlen. rewrite (acquire_empty _ Hlen) in Hr.
    right. apply getConnection_fresh. unfold bind, ret in Hr.
    destruct (getConnection w) as [[d|e] w']; cbn in *; congruence.
  - destruct (pool_cases (activeConnections w)) as [E|[rest [v E]]].
    { rewrite E in Hlen; discriminate. }
    assert (Hrest : List.length rest = n).
    { rewrite E, length_app, Nat.add_comm in Hlen. cbn in Hlen. lia. }
    destruct v as [| |d].
    + rewrite (acquire_falsy _ _ _ E eq_refl) in Hr. discriminate.
    + rewrite (acquire_falsy _ _ _ E eq_refl) in Hr. discriminate.
    + destruct (valid w d) as [[|]|e] eqn:Hv.
      * rewrite (acquire_live _ _ _ E Hv) in Hr. cbn in Hr.
        injection Hr as ->. left. split; [|exact Hv].
        rewrite E. apply in_or_app. right. now left.
      * rewrite (acquire_dead _ _ _ E Hv) in Hr.
        destruct (IH (discard (set_pool rest w) d) c Hrest Hr)
          as [[Hin Hvc]|Hfresh].
        -- left. cbn in Hin, Hvc. split.
           ++ rewrite E. apply in_or_app. now left.
           ++ destruct (Nat.eqb c d); [discriminate | exact Hvc].
        -- right. exact Hfresh.
      * rewrite (acquire_check_throws _ _ _ _ E Hv) in Hr. discriminate.
Qed.

(* ------------------------------------------------------------------ *)
(** ** Allocation of connection objects                                 *)
(* ------------------------------------------------------------------ *)

Lemma getConnection_next_conn w :
  next_conn w <= next_conn (snd (getConnection w)).
Proof.
  unfold getConnection, try_catch, bind, getAuthToken, try_catch,
    generateAuthenticationToken, createConnection, throw.
  destruct (sdk_token w _ _) as [t|e].
  - cbn [driver_connect log next_conn].
    destruct (driver_connect w _ t) as [e|]; branches; cbn; lia.
  - branches; cbn; lia.
Qed.

Lemma acquire_next_conn (n : nat) : forall w,
  List.length (activeConnections w) = n ->
  next_conn w <= next_conn (snd (getPoolConnection w)).
Proof.
  induction n as [|n IH]; intros w Hlen.
  - apply length_zero_iff_nil in Hlen. rewrite (acquire_empty _ Hlen).
    pose proof (getConnection_next_conn w) as H. unfold bind.
    destruct (getConnection w) as [[c|e] w']; exact H.
  - destruct (pool_cases (activeConnections w)) as [E|[rest [v E]]].
    { rewrite E in Hlen; discriminate. }
    assert (Hrest : List.length rest = n).
    { rewrite E, length_app, Nat.add_comm in Hlen. cbn in Hlen. lia. }
    destruct v as [| |c].
    + rewrite (acquire_falsy _ _ _ E eq_refl). cbn. lia.
    + rewrite (acquire_falsy _ _ _ E eq_refl). cbn. lia.
    + destruct (valid w c) as [[|]|e] eqn:Hv.
      * rewrite (acquire_live _ _ _ E Hv). cbn. lia.
      * rewrite (acquire_dead _ _ _ E Hv).
        exact (IH (discard (set_pool rest w) c) Hrest).
      * rewrite (acquire_check_throws _ _ _ _ E Hv). cbn. lia.
Qed.

Lemma step_pool_allocated o w :
  pool_allocated w ->
  match o with Release (Conn c) => c < next_conn w | _ => True end ->
  pool_allocated (step o w).
Proof.
  intros Hw Ho. destruct o as [|v|c b]; cbn [step].
  - intros c Hc.
    destruct (acquire_pool_prefix _ w eq_refl) as [popped Hp].
    pose proof (acquire_next_conn _ w eq_refl).
    assert (c < next_conn w); [|lia].
    apply Hw. rewrite Hp. apply in_or_app. now left.
  - destruct v as [| |c]; try exact Hw.
    destruct (valid w c) as [[|]|e] eqn:Hv.
    + destruct (Z.lt_ge_cases (Z.of_nat (List.length (activeConnections w)))
                  (idle_cap w)) as [Hlt|Hge].
      * rewrite (release_live_under_cap _ _ Hv Hlt). intros d Hd.
        cbn in Hd |- *. apply in_app_or in Hd as [Hd|[Hd|[]]].
        -- now apply Hw.
        -- now injection Hd as <-.
      * rewrite (release_live_at_cap _ _ Hv Hge). exact Hw.
    + rewrite (release_not_live _ _ Hv). exact Hw.
    + rewrite (release_check_throws _ _ _ Hv). exact Hw.
  - exact Hw.
Qed.

(** From the empty pool, as long as callers release objects they were
    handed, every pooled object is an allocated one. *)
Lemma run_pool_allocated ops : forall w,
  pool_allocated w -> releases_allocated ops w -> pool_allocated (run ops w).
Proof.
  induction ops as [|o ops IH]; intros w Hw Hops; [exact Hw|].
  destruct Hops as [Ho Hops]. cbn [run fold_left].
  apply IH; [|exact Hops]. now apply step_pool_allocated.
Qed.

Lemma initial_pool_allocated w : initial w -> pool_allocated w.
Proof. intros H c Hc. rewrite H in Hc. destruct Hc. Qed.

(* ================================================================== *)
(** * The idle pool                                                     *)
(* ================================================================== *)

(** C1.  Starting from the empty pool, after any sequence of Acquire and
    Release calls (with the network changing the liveness of connections
    in between as it pleases) the idle pool holds at most
    [dbConfig.connectionLimit] connections. *)
Theorem pool_never_exceeds_cap (ops : list Op) (w : World) :
  initial w ->
  (Z.of_nat (List.length (activeConnections (run ops w)))
   <= connectionLimit (dbConfig (penv w)))%Z.
Proof.
  intros Hinit. change (connectionLimit (dbConfig (penv w))) with 5%Z.
  apply run_within_cap. rewrite Hinit. cbn. lia.
Qed.

Lemma pool_never_exceeds_cap_witness :
  initial Sample.started
  /\ (Z.of_nat
        (List.length (activeConnections (run Sample.busy Sample.started)))
      <= connectionLimit (dbConfig (penv Sample.started)))%Z.
Proof.
  split; [reflexivity|].
  apply (pool_never_exceeds_cap Sample.busy Sample.started). reflexivity.
Defined.

(** The cap is reached: the bound of C1 is tight. *)
Example pool_reaches_cap :
  activeConnections
    (run (map Release (map Conn [0; 1; 2; 3; 4; 5; 6])) (Sample.healthy [] 10))
  = map Conn [0; 1; 2; 3; 4].
Proof. reflexivity. Qed.

(** C9.  Releasing a connection whose liveness check answers "not live"
    returns normally (nothing is thrown) and leaves the idle pool as it
    was, so in particular at the same length. *)
Theorem release_of_dead_connection_is_silent (w : World) (c : ConnId) :
  valid w c = Normal false ->
  fst (releaseConnection (Conn c) w) = Normal tt
  /\ List.length (activeConnections (snd (releaseConnection (Conn c) w)))
     = List.length (activeConnections w)
  /\ activeConnections (snd (releaseConnection (Conn c) w))
     = activeConnections w.
Proof.
  intros Hv. rewrite (release_not_live _ _ Hv). cbn. auto.
Qed.

Lemma release_of_dead_connection_is_silent_witness :
  valid (Sample.with_dead [7] [Conn 1; Conn 2] 8) 7 = Normal false
  /\ fst (releaseConnection (Conn 7) (Sample.with_dead [7] [Conn 1; Conn 2] 8))
     = Normal tt
  /\ List.length
       (activeConnections
          (snd (releaseConnection (Conn 7)
                  (Sample.with_dead [7] [Conn 1; Conn 2] 8))))
     = 2.
Proof.
  split; [reflexivity|].
  destruct (release_of_dead_connection_is_silent
              (Sample.with_dead [7] [Conn 1; Conn 2] 8) 7 eq_refl)
    as [Hr [Hlen _]].
  split; [exact Hr | exact Hlen].
Defined.

(** C2.  What the code does with a connection that is not live: Release
    asks [isValid] and stops there.  No [end] is called on the connection,
    although it is (rightly) not kept in the pool.  Acquire, meeting the
    same dead connection in the pool, does close it. *)
Theorem release_leaves_dead_connection_open :
  valid (Sample.with_dead [7] [] 8) 7 = Normal false
  /\ fst (releaseConnection (Conn 7) (Sample.with_dead [7] [] 8)) = Normal tt
  /\ trace (snd (releaseConnection (Conn 7) (Sample.with_dead [7] [] 8)))
     = [EvIsValid 7]
  /\ ~ In (EvEnd 7)
       (trace (snd (releaseConnection (Conn 7) (Sample.with_dead [7] [] 8))))
  /\ activeConnections
       (snd (releaseConnection (Conn 7) (Sample.with_dead [7] [] 8))) = []
  /\ In (EvEnd 7)
       (trace (snd (getPoolConnection (Sample.with_dead [7] [Conn 7] 8)))).
Proof.
  repeat split; try reflexivity.
  - cbn. intros [H|[]]. discriminate.
  - cbn. right. left. reflexivity.
Qed.

(** In general: Release of a connection that is not live makes exactly one
    outside call, the liveness check. *)
Lemma release_of_dead_connection_trace w c :
  valid w c = Normal false ->
  trace (snd (releaseConnection (Conn c) w)) = trace w ++ [EvIsValid c].
Proof. intros Hv. now rewrite (release_not_live _ _ Hv). Qed.

(** C4.  A connection released while live and while the pool is under the
    cap is stored, and the Acquire that follows returns that very
    connection; no token is requested and no connection is opened across
    the pair, and the pool is back to what it was. *)
Theorem released_connection_is_reused (w : World) (c : ConnId) :
  valid w c = Normal true ->
  (Z.of_nat (List.length (activeConnections w))
   < connectionLimit (dbConfig (penv w)))%Z ->
  fst (releaseConnection (Conn c) w) = Normal tt
  /\ activeConnections (snd (releaseConnection (Conn c) w))
     = activeConnections w ++ [Conn c]
  /\ fst (getPoolConnection (snd (releaseConnection (Conn c) w)))
     = Normal (Conn c)
  /\ token_calls (snd (getPoolConnection (snd (releaseConnection (Conn c) w))))
     = token_calls w
  /\ connect_calls (snd (getPoolConnection (snd (releaseConnection (Conn c) w))))
     = connect_calls w
  /\ activeConnections
       (snd (getPoolConnection (snd (releaseConnection (Conn c) w))))
     = activeConnections w.
Proof.
  intros Hv Hcap. rewrite (release_live_under_cap _ _ Hv Hcap).
  cbn [fst snd]. split; [reflexivity|]. split; [reflexivity|].
  rewrite (acquire_live _ (activeConnections w) c); [|reflexivity|exact Hv].
  cbn [fst snd]. split; [reflexivity|].
  unfold token_calls, connect_calls. cbn [trace log set_pool activeConnections].
  rewrite !filter_app, !length_app. cbn. repeat split; lia.
Qed.

Lemma released_connection_is_reused_witness :
  fst (getPoolConnection
         (snd (releaseConnection (Conn 3) (Sample.healthy [Conn 1; Conn 2] 4))))
  = Normal (Conn 3)
  /\ token_calls
       (snd (getPoolConnection
               (snd (releaseConnection (Conn 3)
                       (Sample.healthy [Conn 1; Conn 2] 4)))))
     = token_calls (Sample.healthy [Conn 1; Conn 2] 4).
Proof.
  destruct (released_connection_is_reused
              (Sample.healthy [Conn 1; Conn 2] 4) 3 eq_refl eq_refl)
    as [_ [_ [Hr [Ht _]]]].
  split; [exact Hr | exact Ht].
Defined.

(** The liveness check is repeated at Acquire: a stored connection that
    the network drops between Release and Acquire is closed instead of
    being returned, and a new one is created with a new token. *)
Example released_connection_lost_in_between :
  fst (getPoolConnection
         (step (Network 3 (Normal false))
            (step (Release (Conn 3)) (Sample.healthy [] 4))))
  = Normal (Conn 4)
  /\ token_calls
       (snd (getPoolConnection
               (step (Network 3 (Normal false))
                  (step (Release (Conn 3)) (Sample.healthy [] 4)))))
     = 1.
Proof. split; reflexivity. Qed.

(** C5.  Let the pool end in the connections [popped] (listed in the order
    Acquire pops them), each failing its liveness check.  Acquire checks
    and closes them one after the other and goes on with what is
    underneath: none of them is the value returned; when nothing is
    underneath, the result is that of creating a new connection; when a
    live connection is underneath, that one is returned. *)
Theorem acquire_never_returns_a_dead_connection
    (w : World) (rest : list Val) (popped : list ConnId) :
  activeConnections w = rest ++ map Conn (rev popped) ->
  (forall c, In c popped -> valid w c = Normal false) ->
  pool_allocated w ->
  getPoolConnection w = getPoolConnection (discard_all popped (set_pool rest w))
  /\ trace (discard_all popped (set_pool rest w))
     = trace w ++ discard_events popped
  /\ (forall c, In c popped -> fst (getPoolConnection w) <> Normal (Conn c))
  /\ (rest = [] ->
      getPoolConnection w
      = (c <- getConnection ;; ret (Conn c))
          (discard_all popped (set_pool [] w)))
  /\ (forall rest' c,
        rest = rest' ++ [Conn c] -> valid w c = Normal true ->
        getPoolConnection w
        = (Normal (Conn c),
           log (EvIsValid c)
             (set_pool rest' (discard_all popped (set_pool rest w))))).
Proof.
  intros E Hdead Halloc.
  pose proof (acquire_discards popped w rest E Hdead) as Hgo.
  split; [exact Hgo|].
  split; [exact (discard_all_trace popped (set_pool rest w))|].
  split; [|split].
  - intros c Hc Hr.
    destruct (acquire_origin _ w c eq_refl Hr) as [[_ Hv]|Hfresh].
    + rewrite (Hdead c Hc) in Hv. discriminate.
    + assert (c < next_conn w); [|lia].
      apply Halloc. rewrite E. apply in_or_app. right.
      apply in_map, in_rev. now rewrite rev_involutive.
  - intros ->. rewrite Hgo. apply acquire_empty.
    now rewrite discard_all_pool.
  - intros rest' c -> Hv. rewrite Hgo. apply acquire_live.
    + now rewrite discard_all_pool.
    + rewrite discard_all_valid_other; [exact Hv|].
      intros Hc. rewrite (Hdead c Hc) in Hv. discriminate.
Qed.

(** A pool [Conn 1; Conn 7; Conn 8] whose two top connections are dead:
    Acquire closes 8 and 7 and returns 1.  A pool [Conn 7] with 7 dead:
    Acquire closes it and returns the newly created connection 9. *)
Lemma acquire_never_returns_a_dead_connection_witness :
  fst (getPoolConnection (Sample.with_dead [7; 8] [Conn 1; Conn 7; Conn 8] 9))
  <> Normal (Conn 8)
  /\ fst (getPoolConnection (Sample.with_dead [7; 8] [Conn 1; Conn 7; Conn 8] 9))
     = Normal (Conn 1)
  /\ fst (getPoolConnection (Sample.with_dead [7] [Conn 7] 9))
     = Normal (Conn 9).
Proof.
  assert (Hdead2 : forall c, In c [8; 7] ->
            valid (Sample.with_dead [7; 8] [Conn 1; Conn 7; Conn 8] 9) c
            = Normal false).
  { intros c [<-|[<-|[]]]; reflexivity. }
  assert (Halloc2 : pool_allocated
                      (Sample.with_dead [7; 8] [Conn 1; Conn 7; Conn 8] 9)).
  { intros c [H|[H|[H|[]]]]; injection H as <-; cbn; lia. }
  assert (Hdead1 : forall c, In c [7] ->
            valid (Sample.with_dead [7] [Conn 7] 9) c = Normal false).
  { intros c [<-|[]]; reflexivity. }
  assert (Halloc1 : pool_allocated (Sample.with_dead [7] [Conn 7] 9)).
  { intros c [H|[]]; injection H as <-; cbn; lia. }
  destruct (acquire_never_returns_a_dead_connection
              (Sample.with_dead [7; 8] [Conn 1; Conn 7; Conn 8] 9)
              [Conn 1] [8; 7] eq_refl Hdead2 Halloc2)
    as [_ [_ [Hnever [_ Hlive]]]].
  destruct (acquire_never_returns_a_dead_connection
              (Sample.with_dead [7] [Conn 7] 9)
              [] [7] eq_refl Hdead1 Halloc1)
    as [_ [_ [_ [Hcreate _]]]].
  split; [apply Hnever; now left|].
  split.
  - now rewrite (Hlive [] 1 eq_refl eq_refl).
  - now rewrite (Hcreate eq_refl).
Defined.




(* ================================================================== *)
(** * The Token Provider                                                *)
(* ================================================================== *)

(** C6.  When the identity service rejects the token request with [err]:
    if [err] is named [CredentialsProviderError] or [AccessDenied], or its
    message contains "credentials", "permission" or "access denied",
    [getAuthToken] throws the fixed permission-denied error; on every
    other [err] it throws [err] itself. *)
Theorem getAuthToken_classifies_errors (w : World) (err : Error) :
  sdk_token w (token_calls w) (token_request w) = Throw err ->
  ((name err = "CredentialsProviderError"
    \/ name err = "AccessDenied"
    \/ includes (message err) "credentials" = true
    \/ includes (message err) "permission" = true
    \/ includes (message err) "access denied" = true) ->
   fst (getAuthToken w) = Throw (new_Error permission_denied_message))
  /\ (~ (name err = "CredentialsProviderError"
         \/ name err = "AccessDenied"
         \/ includes (message err) "credentials" = true
         \/ includes (message err) "permission" = true
         \/ includes (message err) "access denied" = true) ->
      fst (getAuthToken w) = Throw err).
Proof.
  intros Hsdk.
  assert (Hcond : is_credentials_failure err = true <->
                  (name err = "CredentialsProviderError"
                   \/ name err = "AccessDenied"
                   \/ includes (message err) "credentials" = true
                   \/ includes (message err) "permission" = true
                   \/ includes (message err) "access denied" = true)).
  { unfold is_credentials_failure.
    rewrite !orb_true_iff, !String.eqb_eq. tauto. }
  unfold getAuthToken, try_catch, generateAuthenticationToken.
  rewrite Hsdk. split; intros H.
  - apply Hcond in H. now rewrite H.
  - destruct (is_credentials_failure err) eqn:Hc; [|reflexivity].
    exfalso. apply H, Hcond. reflexivity.
Qed.

Lemma getAuthToken_classifies_errors_witness :
  fst (getAuthToken
         (Sample.token_fails
            {| name := "CredentialsProviderError";
               message := "Could not load credentials from any providers";
               code := None |}))
  = Throw (new_Error permission_denied_message)
  /\ fst (getAuthToken
            (Sample.token_fails
               {| name := "TimeoutError";
                  message := "connect ETIMEDOUT";
                  code := None |}))
     = Throw {| name := "TimeoutError";
                message := "connect ETIMEDOUT";
                code := None |}.
Proof.
  split.
  - apply (getAuthToken_classifies_errors
             (Sample.token_fails
                {| name := "CredentialsProviderError";
                   message := "Could not load credentials from any providers";
                   code := None |}) _ eq_refl).
    left. reflexivity.
  - apply (getAuthToken_classifies_errors
             (Sample.token_fails
                {| name := "TimeoutError";
                   message := "connect ETIMEDOUT";
                   code := None |}) _ eq_refl).
    intros [H|[H|[H|[H|H]]]]; discriminate H.
Defined.

(** A token that is issued is returned as it is. *)
Lemma getAuthToken_success w t :
  sdk_token w (token_calls w) (token_request w) = Normal t ->
  fst (getAuthToken w) = Normal t.
Proof.
  intros H. unfold getAuthToken, try_catch, generateAuthenticationToken.
  now rewrite H.
Qed.

(** Every call of [getAuthToken] is one request to the identity service. *)
Lemma getAuthToken_token_calls w :
  token_calls (snd (getAuthToken w)) = S (token_calls w).
Proof.
  unfold getAuthToken, try_catch, generateAuthenticationToken.
  destruct (sdk_token w _ _) as [t|e]; [|destruct (is_credentials_failure e)];
    cbn [snd throw]; rewrite token_calls_log; cbn; lia.
Qed.

Lemma token_calls_set_valid c b w :
  token_calls (set_valid c b w) = token_calls w.
Proof. reflexivity. Qed.

Lemma token_calls_log_other e w :
  is_token_event e = false -> token_calls (log e w) = token_calls w.
Proof. intros H. rewrite token_calls_log, H. lia. Qed.

(** ... and so is every call of [getConnection]. *)
Lemma getConnection_token_calls w :
  token_calls (snd (getConnection w)) = S (token_calls w).
Proof.
  unfold getConnection, try_catch, bind.
  pose proof (getAuthToken_token_calls w) as Ht.
  destruct (getAuthToken w) as [[t|e] w1]; cbn [snd] in Ht.
  - pose proof (preserves_createConnection token_calls
                  token_calls_log_other (fun _ => eq_refl) t w1) as Hc.
    destruct (createConnection t w1) as [[c|e] w2]; cbn [snd] in *;
      [congruence|].
    branches; cbn; congruence.
  - branches; cbn; congruence.
Qed.

(* ================================================================== *)
(** * The handlers                                                      *)
(* ================================================================== *)

(** [err.message && err.message.includes(n)] is [err.message.includes(n)]
    for a non-empty [n]: the empty message includes no such [n]. *)
Lemma truthy_guard (m n : string) :
  n <> "" -> truthy_string m && includes m n = includes m n.
Proof.
  intros Hn. destruct m; [|reflexivity].
  destruct n; [contradiction | reflexivity].
Qed.

Lemma truthy_string_eqb (m : string) :
  truthy_string m = negb (String.eqb m "").
Proof. destruct m; reflexivity. Qed.

(** The condition of the [catch] in [/students] is [permission_flavored]. *)
Lemma students_catch_condition (err : Error) :
  truthy_string (message err)
  && (includes (message err) "Permission denied"
      || includes (message err) "access denied"
      || code_is err "ER_ACCESS_DENIED_ERROR")
  = permission_flavored err.
Proof.
  unfold permission_flavored.
  rewrite !andb_orb_distrib_r, !truthy_guard by discriminate.
  now rewrite truthy_string_eqb.
Qed.

Lemma students_catch_eq err w :
  students_catch err w = (Normal (students_spec (Throw err)), w).
Proof.
  unfold students_catch, students_spec. rewrite students_catch_condition.
  destruct (permission_flavored err); reflexivity.
Qed.

(** C7.  [GET /health] always answers, and with the response the table
    gives for the outcome of its attempt (a connection, then a ping): 200
    and the plain text on success; 403 and the fixed permission message
    when the failure's message contains "Permission denied"; otherwise 500
    and "Health check failed: " followed by the failure's message. *)
Theorem health_responses (w : World) :
  fst (health w) = Normal (health_spec (health_attempt w)).
Proof.
  unfold health, health_attempt, try_catch, bind.
  destruct (getConnection w) as [[c|e] w1].
  - unfold try_finally, ping.
    destruct (driver_ping w1 c) as [e|]; rewrite end_ignoring_errors_eq;
      cbn; [|reflexivity].
    rewrite truthy_guard by discriminate.
    destruct (includes (message e) "Permission denied"); reflexivity.
  - cbn. rewrite truthy_guard by discriminate.
    destruct (includes (message e) "Permission denied"); reflexivity.
Qed.

Example health_ok :
  fst (health Sample.started)
  = Normal {| status := 200;
              body := Text "I am OK. Database connection successful." |}.
Proof. reflexivity. Qed.

Example health_forbidden :
  fst (health (Sample.token_fails
                 {| name := "Error";
                    message := "access denied for role";
                    code := None |}))
  = Normal {| status := 403;
              body := StatusMessage "ERROR" permission_denied_message |}.
Proof. reflexivity. Qed.

Example health_failed :
  fst (health (Sample.connect_fails
                 {| name := "SqlError";
                    message := "connect ECONNREFUSED";
                    code := Some "ECONNREFUSED" |}))
  = Normal {| status := 500;
              body := StatusMessage "ERROR"
                        "Health check failed: connect ECONNREFUSED" |}.
Proof. reflexivity. Qed.

(** The [try] and [catch] of [/students] once a connection is held: one
    query, and the response of the table for what querying and sending
    the rows gave. *)
Lemma students_try_eq c w :
  try_catch (rows <- query c students_sql ;; send_rows rows) students_catch w
  = (Normal
       (students_spec
          match driver_query w c students_sql with
          | Normal rows =>
              if serializable rows then Normal rows else Throw stringify_error
          | Throw err => Throw err
          end),
     log (EvQuery c students_sql) w).
Proof.
  unfold try_catch, bind, query, send_rows.
  destruct (driver_query w c students_sql) as [rows|e].
  - destruct (serializable rows); [reflexivity|].
    cbn [throw]. now rewrite students_catch_eq.
  - now rewrite students_catch_eq.
Qed.

(** Once [/students] holds a connection, it queries it and closes it,
    whether the query succeeds or not. *)
Lemma students_closes w c w1 :
  getConnection w = (Normal c, w1) ->
  In (EvQuery c students_sql) (trace (snd (students w)))
  /\ In (EvEnd c) (trace (snd (students w))).
Proof.
  intros Hc. unfold students. rewrite Hc.
  unfold try_finally. rewrite students_try_eq. cbn [students_finally].
  rewrite end_ignoring_errors_eq.
  cbn [snd trace set_valid log]; split; apply in_or_app;
    solve [ left; apply in_or_app; right; now left | right; now left ].
Qed.

(** Once [/health] holds a connection, it pings it and closes it, whether
    the ping succeeds or not. *)
Lemma health_closes w c w1 :
  getConnection w = (Normal c, w1) ->
  In (EvPing c) (trace (snd (health w)))
  /\ In (EvEnd c) (trace (snd (health w))).
Proof.
  intros Hc. unfold health, try_catch, bind. rewrite Hc.
  unfold try_finally, ping.
  destruct (driver_ping w1 c) as [e|]; rewrite end_ignoring_errors_eq;
    cbn [fst snd ret]; branches; cbn [snd trace set_valid log];
    split; apply in_or_app;
    solve [ left; apply in_or_app; right; now left | right; now left ].
Qed.

(** C8.  [GET /students] always answers, and with the response the table
    gives for the outcome of its attempt (a connection, then the fixed
    query, then sending the rows): 200 and the rows on success; 403 and
    the fixed permission message on a permission-flavored failure;
    otherwise 500 and the fixed text, which is also the answer when the
    rows cannot be sent.  On failure the body is thus one of two
    constants, whatever the error says; and once a connection was
    obtained, it is closed by the end of the request, also when the query
    failed. *)
Theorem students_responses (w : World) :
  fst (students w) = Normal (students_spec (students_attempt w))
  /\ (forall err, students_attempt w = Throw err ->
      fst (students w)
      = Normal {| status := 403;
                  body := ErrorMessage permission_denied_message |}
      \/ fst (students w)
         = Normal {| status := 500;
                     body := ErrorMessage "Failed to retrieve student data." |})
  /\ (forall c w1, getConnection w = (Normal c, w1) ->
      In (EvQuery c students_sql) (trace (snd (students w)))
      /\ In (EvEnd c) (trace (snd (students w)))).
Proof.
  assert (Hresp : fst (students w) = Normal (students_spec (students_attempt w))).
  { unfold students, students_attempt.
    destruct (getConnection w) as [[c|e] w1].
    - unfold try_finally. rewrite students_try_eq. cbn [students_finally].
      now rewrite end_ignoring_errors_eq.
    - unfold try_finally. now rewrite students_catch_eq. }
  split; [exact Hresp|]. split.
  - intros err Herr. rewrite Hresp, Herr. cbn [students_spec].
    destruct (permission_flavored err); [now left | now right].
  - intros c w1 Hc. exact (students_closes w c w1 Hc).
Qed.

Lemma students_responses_witness :
  fst (students
         (Sample.query_fails
            {| name := "SqlError";
               message := "Table 'school.students' doesn't exist";
               code := Some "ER_NO_SUCH_TABLE" |}))
  = Normal {| status := 500;
              body := ErrorMessage "Failed to retrieve student data." |}
  /\ In (EvEnd 0)
       (trace (snd (students
                      (Sample.query_fails
                         {| name := "SqlError";
                            message := "Table 'school.students' doesn't exist";
                            code := Some "ER_NO_SUCH_TABLE" |}))))
  /\ fst (students Sample.bigint_ids)
     = Normal {| status := 500;
                 body := ErrorMessage "Failed to retrieve student data." |}.
Proof.
  destruct (students_responses
              (Sample.query_fails
                 {| name := "SqlError";
                    message := "Table 'school.students' doesn't exist";
                    code := Some "ER_NO_SUCH_TABLE" |}))
    as [Hresp [Hfixed Hclosed]].
  destruct (students_responses Sample.bigint_ids) as [Hresp' [Hfixed' _]].
  split; [|split].
  - destruct (Hfixed _ eq_refl) as [H|H]; [|exact H].
    rewrite Hresp in H. discriminate H.
  - exact (proj2 (Hclosed 0 _ eq_refl)).
  - destruct (Hfixed' stringify_error eq_refl) as [H|H]; [|exact H].
    rewrite Hresp' in H. discriminate H.
Defined.

(** With a message, a failure is permission-flavored when the message
    contains "Permission denied" or "access denied" or the code is the
    driver's access-denied code; only an error without a message is never
    permission-flavored. *)
Lemma permission_flavored_with_message (err : Error) :
  message err <> "" ->
  permission_flavored err
  = includes (message err) "Permission denied"
    || includes (message err) "access denied"
    || code_is err "ER_ACCESS_DENIED_ERROR".
Proof.
  intros Hm. unfold permission_flavored.
  destruct (String.eqb_spec (message err) "") as [H|_]; [contradiction|].
  reflexivity.
Qed.

(** Rows that cannot be serialised are answered like any other failure:
    nothing of them is sent, the connection is closed. *)
Example students_bigint :
  fst (students Sample.bigint_ids)
  = Normal {| status := 500;
              body := ErrorMessage "Failed to retrieve student data." |}
  /\ trace (snd (students Sample.bigint_ids))
     = [ EvGenerateAuthenticationToken (token_request Sample.bigint_ids);
         EvCreateConnection "signed-token";
         EvQuery 0 students_sql;
         EvEnd 0 ].
Proof. split; reflexivity. Qed.

Example students_ok :
  fst (students Sample.started)
  = Normal {| status := 200; body := Rows Sample.seeded |}
  /\ List.length Sample.seeded = 5.
Proof. split; reflexivity. Qed.

Example students_forbidden :
  fst (students
         (Sample.connect_fails
            {| name := "SqlError";
               message := "(conn=12, no: 1045) Access denied for user";
               code := Some "ER_ACCESS_DENIED_ERROR" |}))
  = Normal {| status := 403;
              body := ErrorMessage permission_denied_message |}.
Proof. reflexivity. Qed.

(* ------------------------------------------------------------------ *)
(** ** The handlers and the pool                                        *)
(* ------------------------------------------------------------------ *)

Lemma pool_blind_ret (A : Type) (a : A) : pool_blind (ret a).
Proof. intros p w; reflexivity. Qed.

Lemma pool_blind_throw (A : Type) (e : Error) : pool_blind (@throw A e).
Proof. intros p w; reflexivity. Qed.

Lemma pool_blind_send_rows rows : pool_blind (send_rows rows).
Proof.
  unfold send_rows. destruct (serializable rows);
    [apply pool_blind_ret | apply pool_blind_throw].
Qed.

Lemma pool_blind_bind (A B : Type) (m : M A) (k : A -> M B) :
  pool_blind m -> (forall a, pool_blind (k a)) -> pool_blind (bind m k).
Proof.
  intros Hm Hk p w. unfold bind. rewrite Hm.
  destruct (m w) as [[a|e] w']; cbn [fst snd]; [apply Hk | reflexivity].
Qed.

Lemma pool_blind_try_catch (A : Type) (m : M A) (h : Error -> M A) :
  pool_blind m -> (forall e, pool_blind (h e)) -> pool_blind (try_catch m h).
Proof.
  intros Hm Hh p w. unfold try_catch. rewrite Hm.
  destruct (m w) as [[a|e] w']; cbn [fst snd]; [reflexivity | apply Hh].
Qed.

Lemma pool_blind_try_finally (A : Type) (m : M A) (c : M unit) :
  pool_blind m -> pool_blind c -> pool_blind (try_finally m c).
Proof.
  intros Hm Hc p w. unfold try_finally. rewrite Hm.
  destruct (m w) as [r w']; cbn [fst snd]. rewrite Hc.
  destruct (c w') as [[u|e] w'']; reflexivity.
Qed.

Lemma pool_blind_conn_end c : pool_blind (conn_end c).
Proof.
  intros p w. unfold conn_end. cbn [end_throws set_pool].
  destruct (end_throws w c); reflexivity.
Qed.

Lemma pool_blind_end_ignoring_errors c : pool_blind (end_ignoring_errors c).
Proof.
  apply pool_blind_try_catch; [apply pool_blind_conn_end|].
  intros; apply pool_blind_ret.
Qed.

Lemma pool_blind_ping c : pool_blind (ping c).
Proof.
  intros p w. unfold ping. cbn [driver_ping set_pool].
  destruct (driver_ping w c); reflexivity.
Qed.

Lemma pool_blind_query c sql : pool_blind (query c sql).
Proof. intros p w; reflexivity. Qed.

Lemma pool_blind_createConnection t : pool_blind (createConnection t).
Proof.
  intros p w. unfold createConnection.
  change (connect_calls (set_pool p w)) with (connect_calls w).
  cbn [driver_connect set_pool].
  destruct (driver_connect w (connect_calls w) t); reflexivity.
Qed.

Lemma pool_blind_getAuthToken : pool_blind getAuthToken.
Proof.
  intros p w. unfold getAuthToken, try_catch, generateAuthenticationToken.
  change (token_calls (set_pool p w)) with (token_calls w).
  change (token_request (set_pool p w)) with (token_request w).
  cbn [sdk_token set_pool].
  destruct (sdk_token w _ _) as [t|e]; [reflexivity|].
  destruct (is_credentials_failure e); reflexivity.
Qed.

Lemma pool_blind_getConnection : pool_blind getConnection.
Proof.
  apply pool_blind_try_catch.
  - apply pool_blind_bind; [apply pool_blind_getAuthToken|].
    intros; apply pool_blind_createConnection.
  - intros e. destruct (_ && _); [apply pool_blind_throw|].
    destruct (code_is _ _); apply pool_blind_throw.
Qed.

Lemma pool_blind_students_catch e : pool_blind (students_catch e).
Proof. unfold students_catch. destruct (_ && _); apply pool_blind_ret. Qed.

Lemma pool_blind_students_finally v : pool_blind (students_finally v).
Proof.
  destruct v; [apply pool_blind_ret | apply pool_blind_ret |].
  apply pool_blind_end_ignoring_errors.
Qed.

Lemma pool_blind_health : pool_blind health.
Proof.
  apply pool_blind_try_catch.
  - apply pool_blind_bind; [apply pool_blind_getConnection|]. intros c.
    apply pool_blind_bind; [|intros; apply pool_blind_ret].
    apply pool_blind_try_finally;
      [apply pool_blind_ping | apply pool_blind_end_ignoring_errors].
  - intros e. destruct (_ && _); apply pool_blind_ret.
Qed.

Lemma pool_blind_students : pool_blind students.
Proof.
  intros p w. unfold students. rewrite pool_blind_getConnection.
  destruct (getConnection w) as [[c|e] w1]; cbn [fst snd].
  - apply pool_blind_try_finally; [|apply pool_blind_students_finally].
    apply pool_blind_try_catch; [|apply pool_blind_students_catch].
    apply pool_blind_bind; [apply pool_blind_query|].
    intros; apply pool_blind_send_rows.
  - apply pool_blind_try_finally;
      [apply pool_blind_students_catch | apply pool_blind_students_finally].
Qed.

(** What a pool-blind computation does to the pool: nothing. *)
Lemma pool_blind_preserves (A : Type) (m : M A) :
  pool_blind m -> preserves activeConnections m.
Proof.
  intros Hm w. specialize (Hm (activeConnections w) w).
  rewrite set_pool_same in Hm. rewrite Hm at 1. reflexivity.
Qed.

(** After the connection is obtained, a handler requests no token. *)
Lemma health_token_calls w :
  token_calls (snd (health w)) = S (token_calls w).
Proof.
  unfold health, try_catch.
  pose proof (getConnection_token_calls w) as Hc. unfold bind at 1.
  destruct (getConnection w) as [[c|e] w1]; cbn [snd] in Hc.
  - pose proof (preserves_bind token_calls _ _
                  (try_finally (ping c) (end_ignoring_errors c))
                  (fun _ => ret (send (Text "I am OK. Database connection successful.")))
                  (preserves_try_finally token_calls _ _ _
                     (preserves_ping token_calls token_calls_log_other c)
                     (preserves_end_ignoring_errors token_calls
                        token_calls_log_other token_calls_set_valid c))
                  (fun _ => preserves_ret token_calls _ _) w1) as Hrest.
    destruct (bind _ _ w1) as [[r|e] w2]; cbn [snd] in *;
      branches; cbn; congruence.
  - branches; cbn; congruence.
Qed.

Lemma students_token_calls w :
  token_calls (snd (students w)) = S (token_calls w).
Proof.
  unfold students.
  pose proof (getConnection_token_calls w) as Hc.
  destruct (getConnection w) as [[c|e] w1]; cbn [snd] in Hc; rewrite <- Hc.
  - apply (preserves_try_finally token_calls).
    + apply preserves_try_catch; [|intros; apply preserves_students_catch].
      apply preserves_bind; [|intros; apply preserves_send_rows].
      apply preserves_query. exact token_calls_log_other.
    + apply preserves_students_finally;
        [exact token_calls_log_other | exact token_calls_set_valid].
  - apply (preserves_try_finally token_calls).
    + apply preserves_students_catch.
    + apply preserves_students_finally;
        [exact token_calls_log_other | exact token_calls_set_valid].
Qed.

(** C3.  A request to [/health] or [/students] leaves the idle pool as it
    found it and answers the same whatever the pool holds: the handlers
    neither read nor write [activeConnections].  Each request fetches
    exactly one token, and the connection it obtains is disposed of with
    [end]. *)
Theorem handlers_leave_pool_alone (w : World) :
  activeConnections (snd (health w)) = activeConnections w
  /\ activeConnections (snd (students w)) = activeConnections w
  /\ (forall p, fst (health (set_pool p w)) = fst (health w))
  /\ (forall p, fst (students (set_pool p w)) = fst (students w))
  /\ token_calls (snd (health w)) = S (token_calls w)
  /\ token_calls (snd (students w)) = S (token_calls w)
  /\ (forall c w1, getConnection w = (Normal c, w1) ->
      In (EvEnd c) (trace (snd (health w)))
      /\ In (EvEnd c) (trace (snd (students w)))).
Proof.
  split; [apply (pool_blind_preserves _ _ pool_blind_health)|].
  split; [apply (pool_blind_preserves _ _ pool_blind_students)|].
  split; [intros p; now rewrite pool_blind_health|].
  split; [intros p; now rewrite pool_blind_students|].
  split; [apply health_token_calls|].
  split; [apply students_token_calls|].
  intros c w1 Hc. split.
  - exact (proj2 (health_closes w c w1 Hc)).
  - exact (proj2 (students_closes w c w1 Hc)).
Qed.

Lemma handlers_leave_pool_alone_witness :
  activeConnections (snd (health (Sample.healthy [Conn 1; Conn 2] 3)))
  = [Conn 1; Conn 2]
  /\ activeConnections (snd (students (Sample.healthy [Conn 1; Conn 2] 3)))
     = [Conn 1; Conn 2]
  /\ In (EvEnd 3) (trace (snd (health (Sample.healthy [Conn 1; Conn 2] 3))))
  /\ In (EvEnd 3) (trace (snd (students (Sample.healthy [Conn 1; Conn 2] 3)))).
Proof.
  destruct (handlers_leave_pool_alone (Sample.healthy [Conn 1; Conn 2] 3))
    as [Hh [Hs [_ [_ [_ [_ Hend]]]]]].
  split; [exact Hh|]. split; [exact Hs|].
  exact (Hend 3 _ eq_refl).
Defined.

(** The outside calls of one [/students] request, in order: a token, a
    connection opened with it, the query, the close. *)
Example students_trace :
  trace (snd (students (Sample.healthy [Conn 1; Conn 2] 3)))
  = [ EvGenerateAuthenticationToken
        {| region := Some "eu-west-1";
           hostname := Some "db.example.internal";
           req_port := 3306;
           username := Some "app_user" |};
      EvCreateConnection "signed-token";
      EvQuery 3 students_sql;
      EvEnd 3 ].
Proof. reflexivity. Qed.

(* ------------------------------------------------------------------ *)
(** ** A permission failure, end to end                                 *)
(* ------------------------------------------------------------------ *)

(** The fixed error of [getAuthToken] passes through [getConnection]
    unchanged: its message says "Permission denied". *)
Lemma getConnection_permission_denied w err :
  sdk_token w (token_calls w) (token_request w) = Throw err ->
  is_credentials_failure err = true ->
  getConnection w
  = (Throw (new_Error permission_denied_message),
     log (EvGenerateAuthenticationToken (token_request w)) w).
Proof.
  intros Hsdk Hc.
  unfold getConnection, try_catch, bind, getAuthToken, try_catch,
    generateAuthenticationToken.
  rewrite Hsdk, Hc. reflexivity.
Qed.

(** X12.  When the identity service rejects with a message containing
    "access denied", Acquire on an empty pool fails with the
    permission-denied error and both endpoints answer 403. *)
Lemma access_denied_reaches_endpoints w err :
  sdk_token w (token_calls w) (token_request w) = Throw err ->
  includes (message err) "access denied" = true ->
  (activeConnections w = [] ->
   fst (getPoolConnection w) = Throw (new_Error permission_denied_message))
  /\ fst (health w)
     = Normal {| status := 403;
                 body := StatusMessage "ERROR" permission_denied_message |}
  /\ fst (students w)
     = Normal {| status := 403;
                 body := ErrorMessage permission_denied_message |}.
Proof.
  intros Hsdk Hmsg.
  assert (Hc : is_credentials_failure err = true).
  { unfold is_credentials_failure. rewrite Hmsg. now rewrite !orb_true_r. }
  pose proof (getConnection_permission_denied w err Hsdk Hc) as Hg.
  split; [|split].
  - intros Hempty. rewrite (acquire_empty _ Hempty). unfold bind.
    now rewrite Hg.
  - unfold health, try_catch, bind. now rewrite Hg.
  - unfold students. now rewrite Hg.
Qed.

Lemma access_denied_reaches_endpoints_witness :
  fst (getPoolConnection
         (Sample.token_fails
            {| name := "Error";
               message := "access denied for role";
               code := None |}))
  = Throw (new_Error permission_denied_message)
  /\ fst (students
            (Sample.token_fails
               {| name := "Error";
                  message := "access denied for role";
                  code := None |}))
     = Normal {| status := 403;
                 body := ErrorMessage permission_denied_message |}.
Proof.
  destruct (access_denied_reaches_endpoints
              (Sample.token_fails
                 {| name := "Error";
                    message := "access denied for role";
                    code := None |}) _ eq_refl eq_refl)
    as [Hacq [_ Hs]].
  split; [exact (Hacq eq_refl) | exact Hs].
Defined.

(* ================================================================== *)
(** * Further properties of the idle pool                               *)
(* ================================================================== *)

(** What one Release can do to the pool. *)
Lemma release_pool_cases v w :
  activeConnections (snd (releaseConnection v w)) = activeConnections w
  \/ (activeConnections (snd (releaseConnection v w))
      = activeConnections w ++ [v]
      /\ exists c, v = Conn c /\ valid w c = Normal true
         /\ (Z.of_nat (List.length (activeConnections w)) < 5)%Z).
Proof.
  destruct v as [| |c]; try (left; reflexivity).
  destruct (valid w c) as [[|]|e] eqn:Hv.
  - destruct (Z.lt_ge_cases (Z.of_nat (List.length (activeConnections w)))
                (idle_cap w)) as [Hlt|Hge].
    + right. rewrite (release_live_under_cap _ _ Hv Hlt).
      split; [reflexivity|]. exists c. auto.
    + left. now rewrite (release_live_at_cap _ _ Hv Hge).
  - left. now rewrite (release_not_live _ _ Hv).
  - left. now rewrite (release_check_throws _ _ _ Hv).
Qed.

(** X1.  From the empty pool, whatever is acquired and released (callers
    may release [null] or [undefined]), every element of the pool is a
    connection object: a falsy value is never stored. *)
Theorem pool_holds_only_connections (ops : list Op) (w : World) :
  initial w ->
  Forall (fun v => truthy v = true) (activeConnections (run ops w)).
Proof.
  intros Hinit.
  assert (H0 : Forall (fun v => truthy v = true) (activeConnections w)).
  { rewrite Hinit. constructor. }
  clear Hinit. revert w H0.
  induction ops as [|o ops IH]; intros w Hw; [exact Hw|].
  cbn [run fold_left]. apply IH. destruct o as [|v|c b]; cbn [step].
  - destruct (acquire_pool_prefix _ w eq_refl) as [popped Hp].
    rewrite Hp in Hw. now apply Forall_app in Hw.
  - destruct (release_pool_cases v w) as [H|[H [c [-> _]]]]; rewrite H.
    + exact Hw.
    + apply Forall_app. split; [exact Hw|]. now constructor.
  - exact Hw.
Qed.

Lemma pool_holds_only_connections_witness :
  initial Sample.started
  /\ Forall (fun v => truthy v = true)
       (activeConnections
          (run (Release Null :: Release Undefined :: Sample.busy)
             Sample.started)).
Proof.
  split; [reflexivity|].
  apply (pool_holds_only_connections _ Sample.started). reflexivity.
Defined.

(** X2.  Release changes the pool in one way only: it appends the released
    value, and it does so only for a connection object whose [isValid()]
    has just answered true while fewer than five connections were idle.
    In every other case the pool is left as it was. *)
Theorem release_stores_only_live_under_cap (v : Val) (w : World) :
  activeConnections (snd (releaseConnection v w)) = activeConnections w
  \/ (activeConnections (snd (releaseConnection v w))
      = activeConnections w ++ [v]
      /\ exists c, v = Conn c /\ valid w c = Normal true
         /\ (Z.of_nat (List.length (activeConnections w))
             < connectionLimit (dbConfig (penv w)))%Z).
Proof. exact (release_pool_cases v w). Qed.

(** X3.  A live connection released while five connections are already
    idle is closed instead of stored: [end()] is called on it, an exception
    of [end()] is swallowed, and the pool is left as it was. *)
Theorem release_at_cap_closes (w : World) (c : ConnId) :
  valid w c = Normal true ->
  (connectionLimit (dbConfig (penv w))
   <= Z.of_nat (List.length (activeConnections w)))%Z ->
  fst (releaseConnection (Conn c) w) = Normal tt
  /\ trace (snd (releaseConnection (Conn c) w))
     = trace w ++ [EvIsValid c; EvEnd c]
  /\ activeConnections (snd (releaseConnection (Conn c) w))
     = activeConnections w.
Proof.
  intros Hv Hcap. rewrite (release_live_at_cap _ _ Hv Hcap). cbn.
  rewrite <- app_assoc. auto.
Qed.

Lemma release_at_cap_closes_witness :
  fst (releaseConnection (Conn 9)
         (set_pool (map Conn [1; 2; 3; 4; 5])
            (Sample.query_fails (new_Error "unused"))))
  = Normal tt
  /\ trace (snd (releaseConnection (Conn 9)
                   (set_pool (map Conn [1; 2; 3; 4; 5])
                      (Sample.query_fails (new_Error "unused")))))
     = [EvIsValid 9; EvEnd 9].
Proof.
  destruct (release_at_cap_closes
              (set_pool (map Conn [1; 2; 3; 4; 5])
                 (Sample.query_fails (new_Error "unused"))) 9 eq_refl)
    as [Hr [Ht _]].
  - cbn. lia.
  - split; [exact Hr | exact Ht].
Defined.

(** X4.  Release throws exactly when the liveness check itself throws,
    and then with the exception of the check: neither a full pool nor a
    failing [end()] makes it throw. *)
Theorem release_throws_only_from_isValid (v : Val) (w : World) (e : Error) :
  fst (releaseConnection v w) = Throw e
  <-> exists c, v = Conn c /\ valid w c = Throw e.
Proof.
  split.
  - destruct v as [| |c]; try discriminate. intros H. exists c.
    split; [reflexivity|].
    destruct (valid w c) as [[|]|e'] eqn:Hv.
    + destruct (Z.lt_ge_cases (Z.of_nat (List.length (activeConnections w)))
                  (idle_cap w)) as [Hlt|Hge].
      * rewrite (release_live_under_cap _ _ Hv Hlt) in H. discriminate.
      * rewrite (release_live_at_cap _ _ Hv Hge) in H. discriminate.
    + rewrite (release_not_live _ _ Hv) in H. discriminate.
    + rewrite (release_check_throws _ _ _ Hv) in H. cbn in H. congruence.
  - intros [c [-> Hv]]. now rewrite (release_check_throws _ _ _ Hv).
Qed.

Lemma release_throws_only_from_isValid_witness :
  fst (releaseConnection (Conn 3)
         (set_valid 3 (Throw (new_Error "conn.isValid is not a function"))
            (Sample.healthy [] 4)))
  = Throw (new_Error "conn.isValid is not a function")
  /\ fst (releaseConnection (Conn 3)
            (set_pool (map Conn [1; 2; 3; 4; 5])
               (Sample.query_fails (new_Error "unused"))))
     <> Throw (new_Error "Cannot close").
Proof.
  split.
  - apply (release_throws_only_from_isValid (Conn 3)
             (set_valid 3 (Throw (new_Error "conn.isValid is not a function"))
                (Sample.healthy [] 4))).
    exists 3. split; reflexivity.
  - intros H.
    apply (release_throws_only_from_isValid (Conn 3)
             (set_pool (map Conn [1; 2; 3; 4; 5])
                (Sample.query_fails (new_Error "unused")))) in H.
    destruct H as [c [_ H]]. discriminate H.
Defined.

(** Two releases under the cap followed by two acquires. *)
Lemma release_twice_acquire_twice w a b :
  valid w a = Normal true -> valid w b = Normal true ->
  (Z.of_nat (List.length (activeConnections w)) + 2 <= 5)%Z ->
  activeConnections
    (snd (releaseConnection (Conn b) (snd (releaseConnection (Conn a) w))))
  = activeConnections w ++ [Conn a; Conn b]
  /\ fst (getPoolConnection
            (snd (releaseConnection (Conn b)
                    (snd (releaseConnection (Conn a) w)))))
     = Normal (Conn b)
  /\ fst (getPoolConnection
            (snd (getPoolConnection
                    (snd (releaseConnection (Conn b)
                            (snd (releaseConnection (Conn a) w)))))))
     = Normal (Conn a)
  /\ activeConnections
       (snd (getPoolConnection
               (snd (getPoolConnection
                       (snd (releaseConnection (Conn b)
                               (snd (releaseConnection (Conn a) w)))))))) 
     = activeConnections w.
Proof.
  intros Ha Hb Hlen.
  rewrite (release_live_under_cap a w Ha) by (rewrite idle_cap_is_5; lia).
  cbn [snd].
  rewrite (release_live_under_cap b); cycle 1.
  { exact Hb. }
  { rewrite idle_cap_is_5. cbn. rewrite length_app. cbn. lia. }
  cbn [snd activeConnections set_pool log].
  split; [now rewrite <- app_assoc|].
  rewrite (acquire_live _ (activeConnections w ++ [Conn a]) b);
    [|reflexivity|exact Hb].
  cbn [fst snd]. split; [reflexivity|].
  rewrite (acquire_live _ (activeConnections w) a); [|reflexivity|exact Ha].
  split; reflexivity.
Qed.

(** X5.  The pool is a stack: of two live connections released one after
    the other under the cap, the next Acquire returns the one released
    last and the Acquire after it the one released first, which leaves the
    pool as it was before the two releases. *)
Theorem acquire_is_lifo (w : World) (a b : ConnId) :
  valid w a = Normal true -> valid w b = Normal true ->
  (Z.of_nat (List.length (activeConnections w)) + 2
   <= connectionLimit (dbConfig (penv w)))%Z ->
  fst (getPoolConnection
         (snd (releaseConnection (Conn b)
                 (snd (releaseConnection (Conn a) w)))))
  = Normal (Conn b)
  /\ fst (getPoolConnection
            (snd (getPoolConnection
                    (snd (releaseConnection (Conn b)
                            (snd (releaseConnection (Conn a) w)))))))
     = Normal (Conn a)
  /\ activeConnections
       (snd (getPoolConnection
               (snd (getPoolConnection
                       (snd (releaseConnection (Conn b)
                               (snd (releaseConnection (Conn a) w))))))))
     = activeConnections w.
Proof.
  intros Ha Hb Hlen.
  destruct (release_twice_acquire_twice w a b Ha Hb Hlen) as [_ H].
  exact H.
Qed.

Lemma acquire_is_lifo_witness :
  fst (getPoolConnection
         (snd (releaseConnection (Conn 2)
                 (snd (releaseConnection (Conn 1) (Sample.healthy [Conn 0] 3))))))
  = Normal (Conn 2)
  /\ fst (getPoolConnection
            (snd (getPoolConnection
                    (snd (releaseConnection (Conn 2)
                            (snd (releaseConnection (Conn 1)
                                    (Sample.healthy [Conn 0] 3))))))))
     = Normal (Conn 1).
Proof.
  destruct (acquire_is_lifo (Sample.healthy [Conn 0] 3) 1 2 eq_refl eq_refl)
    as [H1 [H2 _]].
  - cbn. lia.
  - split; [exact H1 | exact H2].
Defined.

(** X6.  Release does not look whether the connection is already idle: a
    live connection released twice is stored twice, and the next two
    Acquires hand the same connection object to two callers. *)
Theorem double_release_hands_out_twice (w : World) (c : ConnId) :
  valid w c = Normal true ->
  (Z.of_nat (List.length (activeConnections w)) + 2
   <= connectionLimit (dbConfig (penv w)))%Z ->
  activeConnections
    (snd (releaseConnection (Conn c) (snd (releaseConnection (Conn c) w))))
  = activeConnections w ++ [Conn c; Conn c]
  /\ fst (getPoolConnection
            (snd (releaseConnection (Conn c)
                    (snd (releaseConnection (Conn c) w)))))
     = Normal (Conn c)
  /\ fst (getPoolConnection
            (snd (getPoolConnection
                    (snd (releaseConnection (Conn c)
                            (snd (releaseConnection (Conn c) w)))))))
     = Normal (Conn c).
Proof.
  intros Hc Hlen.
  destruct (release_twice_acquire_twice w c c Hc Hc Hlen) as [H0 [H1 [H2 _]]].
  auto.
Qed.

Lemma double_release_hands_out_twice_witness :
  activeConnections
    (snd (releaseConnection (Conn 1)
            (snd (releaseConnection (Conn 1) (Sample.healthy [] 2)))))
  = [Conn 1; Conn 1]
  /\ fst (getPoolConnection
            (snd (getPoolConnection
                    (snd (releaseConnection (Conn 1)
                            (snd (releaseConnection (Conn 1)
                                    (Sample.healthy [] 2))))))))
     = Normal (Conn 1).
Proof.
  destruct (double_release_hands_out_twice (Sample.healthy [] 2) 1 eq_refl)
    as [H0 [_ H2]].
  - cbn. lia.
  - split; [exact H0 | exact H2].
Defined.

(** X7.  Acquire only pops: the pool it leaves is an initial segment of
    the pool it found.  It never stores anything and never reorders. *)
Theorem acquire_only_pops (w : World) :
  exists popped,
    activeConnections w
    = activeConnections (snd (getPoolConnection w)) ++ popped.
Proof. exact (acquire_pool_prefix _ w eq_refl). Qed.

(** Token and connection requests of one Acquire. *)
Lemma acquire_calls (n : nat) : forall w,
  List.length (activeConnections w) = n ->
  (token_calls (snd (getPoolConnection w)) = token_calls w
   /\ connect_calls (snd (getPoolConnection w)) = connect_calls w)
  \/ (token_calls (snd (getPoolConnection w)) = S (token_calls w)
      /\ activeConnections (snd (getPoolConnection w)) = []).
Proof.
  induction n as [|n IH]; intros w Hlen.
  - apply length_zero_iff_nil in Hlen. right.
    rewrite (acquire_empty _ Hlen). unfold bind.
    pose proof (getConnection_token_calls w) as Ht.
    pose proof (preserves_getConnection activeConnections
                  (fun _ _ _ => eq_refl) (fun _ => eq_refl)
                  (fun _ _ => eq_refl) w) as Hp.
    destruct (getConnection w) as [[c|e] w']; cbn [snd ret] in *;
      split; congruence.
  - destruct (pool_cases (activeConnections w)) as [E|[rest [v E]]].
    { rewrite E in Hlen; discriminate. }
    assert (Hrest : List.length rest = n).
    { rewrite E, length_app, Nat.add_comm in Hlen. cbn in Hlen. lia. }
    destruct v as [| |c].
    + left. rewrite (acquire_falsy _ _ _ E eq_refl). split; reflexivity.
    + left. rewrite (acquire_falsy _ _ _ E eq_refl). split; reflexivity.
    + destruct (valid w c) as [[|]|e] eqn:Hv.
      * left. rewrite (acquire_live _ _ _ E Hv). cbn [snd].
        rewrite token_calls_log, connect_calls_log. cbn.
        split; unfold token_calls, connect_calls; cbn; lia.
      * rewrite (acquire_dead _ _ _ E Hv).
        assert (Ht : token_calls (discard (set_pool rest w) c) = token_calls w).
        { unfold discard. rewrite token_calls_set_valid, !token_calls_log.
          cbn. unfold token_calls. cbn. lia. }
        assert (Hc : connect_calls (discard (set_pool rest w) c)
                     = connect_calls w).
        { unfold discard, connect_calls. cbn.
          rewrite !filter_app. cbn. now rewrite !app_nil_r. }
        destruct (IH (discard (set_pool rest w) c) Hrest) as [[H1 H2]|[H1 H2]].
        -- left. split; congruence.
        -- right. split; congruence.
      * left. rewrite (acquire_check_throws _ _ _ _ E Hv). cbn [snd].
        rewrite token_calls_log, connect_calls_log. cbn.
        split; unfold token_calls, connect_calls; cbn; lia.
Qed.

(** X8.  Acquire requests at most one token, and requests one only after
    it has emptied the pool: when the token count went up, it went up by
    one and the pool is empty; otherwise neither a token was requested nor
    a connection opened. *)
Theorem acquire_requests_token_only_when_exhausted (w : World) :
  (token_calls (snd (getPoolConnection w)) = token_calls w
   /\ connect_calls (snd (getPoolConnection w)) = connect_calls w)
  \/ (token_calls (snd (getPoolConnection w)) = S (token_calls w)
      /\ activeConnections (snd (getPoolConnection w)) = []).
Proof. exact (acquire_calls _ w eq_refl). Qed.

(* ================================================================== *)
(** * Further properties of the connection factory                      *)
(* ================================================================== *)

Lemma connect_calls_log_token r w :
  connect_calls (log (EvGenerateAuthenticationToken r) w) = connect_calls w.
Proof. rewrite connect_calls_log. cbn. lia. Qed.

(** What [getConnection] returns, case by case. *)
Lemma getConnection_token_throws w err :
  sdk_token w (token_calls w) (token_request w) = Throw err ->
  getConnection w
  = (Throw (if is_credentials_failure err
            then new_Error permission_denied_message
            else rethrown err),
     log (EvGenerateAuthenticationToken (token_request w)) w).
Proof.
  intros Hsdk.
  unfold getConnection, try_catch, bind, getAuthToken, try_catch,
    generateAuthenticationToken, rethrown.
  rewrite Hsdk. destruct (is_credentials_failure err); [reflexivity|].
  cbn [throw]. rewrite truthy_guard by discriminate.
  destruct (includes (message err) "Permission denied"); [reflexivity|].
  destruct (code_is err "ER_ACCESS_DENIED_ERROR"); reflexivity.
Qed.

Lemma getConnection_connect_throws w t err :
  sdk_token w (token_calls w) (token_request w) = Normal t ->
  driver_connect w (connect_calls w) t = Some err ->
  getConnection w
  = (Throw (rethrown err),
     log (EvCreateConnection t)
       (log (EvGenerateAuthenticationToken (token_request w)) w)).
Proof.
  intros Hsdk Hdrv.
  unfold getConnection, try_catch, bind, getAuthToken, try_catch,
    generateAuthenticationToken, createConnection, rethrown.
  rewrite Hsdk. cbn [driver_connect log]. rewrite connect_calls_log_token.
  cbn [driver_connect log]. rewrite Hdrv. cbn [throw].
  rewrite truthy_guard by discriminate.
  destruct (includes (message err) "Permission denied"); [reflexivity|].
  destruct (code_is err "ER_ACCESS_DENIED_ERROR"); reflexivity.
Qed.

Lemma getConnection_connects w t :
  sdk_token w (token_calls w) (token_request w) = Normal t ->
  driver_connect w (connect_calls w) t = None ->
  getConnection w
  = (Normal (next_conn w),
     alloc_conn
       (log (EvCreateConnection t)
          (log (EvGenerateAuthenticationToken (token_request w)) w))).
Proof.
  intros Hsdk Hdrv.
  unfold getConnection, try_catch, bind, getAuthToken, try_catch,
    generateAuthenticationToken, createConnection.
  rewrite Hsdk. cbn [driver_connect log]. rewrite connect_calls_log_token.
  cbn [driver_connect log]. rewrite Hdrv. reflexivity.
Qed.

(** X9.  The outside calls of one [getConnection], in order: one token
    request for the configured host, port and user and, only if a token
    was issued, one connection attempt whose password is that very token.
    Without a token the driver is not called. *)
Theorem getConnection_connects_with_the_token_it_fetched (w : World) :
  trace (snd (getConnection w))
  = trace w
    ++ EvGenerateAuthenticationToken
         {| region := AWS_REGION (penv w);
            hostname := DB_HOST (penv w);
            req_port := port (dbConfig (penv w));
            username := DB_USER (penv w) |}
    :: match sdk_token w (token_calls w) (token_request w) with
       | Normal token => [EvCreateConnection token]
       | Throw _ => []
       end.
Proof.
  destruct (sdk_token w (token_calls w) (token_request w)) as [t|e] eqn:Hsdk.
  - destruct (driver_connect w (connect_calls w) t) as [e|] eqn:Hdrv.
    + rewrite (getConnection_connect_throws _ _ _ Hsdk Hdrv). cbn.
      now rewrite <- app_assoc.
    + rewrite (getConnection_connects _ _ Hsdk Hdrv). cbn.
      now rewrite <- app_assoc.
  - now rewrite (getConnection_token_throws _ _ Hsdk).
Qed.

Lemma rethrown_permission err :
  code_is err "ER_ACCESS_DENIED_ERROR" = true ->
  includes (message (rethrown err)) "Permission denied" = true.
Proof.
  intros Hcode. unfold rethrown.
  destruct (includes (message err) "Permission denied") eqn:Hinc;
    [exact Hinc|].
  rewrite Hcode. reflexivity.
Qed.

Lemma health_on_permission_error w err w1 :
  getConnection w = (Throw err, w1) ->
  includes (message err) "Permission denied" = true ->
  fst (health w)
  = Normal {| status := 403;
              body := StatusMessage "ERROR" permission_denied_message |}.
Proof.
  intros Hg Hinc. unfold health, try_catch, bind. rewrite Hg.
  rewrite truthy_guard by discriminate. now rewrite Hinc.
Qed.

Lemma students_on_permission_error w err w1 :
  getConnection w = (Throw err, w1) ->
  includes (message err) "Permission denied" = true ->
  fst (students w)
  = Normal {| status := 403; body := ErrorMessage permission_denied_message |}.
Proof.
  intros Hg Hinc. unfold students. rewrite Hg. unfold try_finally.
  rewrite students_catch_eq. cbn. unfold permission_flavored.
  now rewrite Hinc.
Qed.

(** X10.  When the driver refuses the connection with the code
    [ER_ACCESS_DENIED_ERROR], whatever its message, [getConnection] throws
    an error whose message contains "Permission denied" (the driver's own
    error if it says so already, else the fixed database-access error),
    and both endpoints answer 403 with the fixed permission message. *)
Theorem driver_access_denied_gives_403 (w : World) (t : string) (err : Error) :
  sdk_token w (token_calls w) (token_request w) = Normal t ->
  driver_connect w (connect_calls w) t = Some err ->
  code err = Some "ER_ACCESS_DENIED_ERROR" ->
  (exists e, fst (getConnection w) = Throw e
             /\ includes (message e) "Permission denied" = true
             /\ (includes (message err) "Permission denied" = false ->
                 e = new_Error database_denied_message))
  /\ fst (health w)
     = Normal {| status := 403;
                 body := StatusMessage "ERROR" permission_denied_message |}
  /\ fst (students w)
     = Normal {| status := 403;
                 body := ErrorMessage permission_denied_message |}.
Proof.
  intros Hsdk Hdrv Hcode.
  assert (Hc : code_is err "ER_ACCESS_DENIED_ERROR" = true).
  { unfold code_is. rewrite Hcode. reflexivity. }
  pose proof (getConnection_connect_throws _ _ _ Hsdk Hdrv) as Hg.
  pose proof (rethrown_permission err Hc) as Hperm.
  split; [|split].
  - exists (rethrown err). rewrite Hg. split; [reflexivity|].
    split; [exact Hperm|]. intros Hinc. unfold rethrown.
    now rewrite Hinc, Hc.
  - exact (health_on_permission_error _ _ _ Hg Hperm).
  - exact (students_on_permission_error _ _ _ Hg Hperm).
Qed.

Lemma driver_access_denied_gives_403_witness :
  fst (getConnection
         (Sample.connect_fails
            {| name := "SqlError";
               message := "(conn=12, no: 1045) Access denied for user";
               code := Some "ER_ACCESS_DENIED_ERROR" |}))
  = Throw (new_Error database_denied_message)
  /\ fst (health
            (Sample.connect_fails
               {| name := "SqlError";
                  message := "(conn=12, no: 1045) Access denied for user";
                  code := Some "ER_ACCESS_DENIED_ERROR" |}))
     = Normal {| status := 403;
                 body := StatusMessage "ERROR" permission_denied_message |}.
Proof.
  destruct (driver_access_denied_gives_403
              (Sample.connect_fails
                 {| name := "SqlError";
                    message := "(conn=12, no: 1045) Access denied for user";
                    code := Some "ER_ACCESS_DENIED_ERROR" |})
              "signed-token" _ eq_refl eq_refl eq_refl)
    as [[e [He [_ Hfixed]]] [Hh _]].
  split; [|exact Hh].
  rewrite He. f_equal. apply Hfixed. reflexivity.
Defined.



(* ================================================================== *)
(** * Further properties: what gets closed, and when                    *)
(* ================================================================== *)

Lemma getConnection_no_end w c :
  ~ In (EvEnd c)
      (EvGenerateAuthenticationToken (token_request w)
       :: match sdk_token w (token_calls w) (token_request w) with
          | Normal token => [EvCreateConnection token]
          | Throw _ => []
          end).
Proof.
  destruct (sdk_token w _ _); cbn; intros [H|H]; try discriminate;
    try contradiction.
  destruct H as [H|[]]. discriminate.
Qed.

Lemma getConnection_trace w :
  trace (snd (getConnection w))
  = trace w
    ++ EvGenerateAuthenticationToken (token_request w)
    :: match sdk_token w (token_calls w) (token_request w) with
       | Normal token => [EvCreateConnection token]
       | Throw _ => []
       end.
Proof.
  destruct (sdk_token w (token_calls w) (token_request w)) as [t|e] eqn:Hsdk.
  - destruct (driver_connect w (connect_calls w) t) as [e|] eqn:Hdrv.
    + rewrite (getConnection_connect_throws _ _ _ Hsdk Hdrv). cbn.
      now rewrite <- app_assoc.
    + rewrite (getConnection_connects _ _ Hsdk Hdrv). cbn.
      now rewrite <- app_assoc.
  - now rewrite (getConnection_token_throws _ _ Hsdk).
Qed.

(** The outside calls of one Acquire, and which of them are closes. *)
Lemma acquire_trace (n : nat) : forall w,
  List.length (activeConnections w) = n ->
  exists evs,
    trace (snd (getPoolConnection w)) = trace w ++ evs
    /\ forall c, In (EvEnd c) evs ->
         valid w c = Normal false /\ In (Conn c) (activeConnections w).
Proof.
  induction n as [|n IH]; intros w Hlen.
  - apply length_zero_iff_nil in Hlen. rewrite (acquire_empty _ Hlen).
    pose proof (getConnection_trace w) as Ht. unfold bind.
    destruct (getConnection w) as [[c|e] w']; cbn [snd ret] in *;
      eexists; (split; [exact Ht|]);
      intros d Hd; exfalso; exact (getConnection_no_end w d Hd).
  - destruct (pool_cases (activeConnections w)) as [E|[rest [v E]]].
    { rewrite E in Hlen; discriminate. }
    assert (Hrest : List.length rest = n).
    { rewrite E, length_app, Nat.add_comm in Hlen. cbn in Hlen. lia. }
    destruct v as [| |c].
    + rewrite (acquire_falsy _ _ _ E eq_refl). exists []. cbn.
      rewrite app_nil_r. split; [reflexivity | intros d []].
    + rewrite (acquire_falsy _ _ _ E eq_refl). exists []. cbn.
      rewrite app_nil_r. split; [reflexivity | intros d []].
    + destruct (valid w c) as [[|]|e] eqn:Hv.
      * rewrite (acquire_live _ _ _ E Hv). exists [EvIsValid c]. cbn.
        split; [reflexivity | intros d [H|[]]; discriminate].
      * rewrite (acquire_dead _ _ _ E Hv).
        destruct (IH (discard (set_pool rest w) c) Hrest) as [evs [Ht Hends]].
        exists ([EvIsValid c; EvEnd c] ++ evs). split.
        -- rewrite Ht. cbn. now rewrite <- !app_assoc.
        -- intros d Hd. rewrite E.
           destruct Hd as [Hd|[Hd|Hd]]; [discriminate| |].
           ++ injection Hd as <-. split; [exact Hv|].
              apply in_or_app. right. now left.
           ++ destruct (Hends d Hd) as [Hvd Hin]. cbn in Hvd, Hin. split.
              ** destruct (Nat.eqb_spec d c) as [->|]; [exact Hv | exact Hvd].
              ** apply in_or_app. now left.
      * rewrite (acquire_check_throws _ _ _ _ E Hv). exists [EvIsValid c].
        cbn. split; [reflexivity | intros d [H|[]]; discriminate].
Qed.

(** X13.  Acquire closes nothing but pooled connections that are not
    live: every [end()] it calls is on a connection that was in the pool
    and whose [isValid()] answers false.  A live connection is never
    closed by Acquire. *)
Theorem acquire_closes_only_dead (w : World) :
  exists evs,
    trace (snd (getPoolConnection w)) = trace w ++ evs
    /\ forall c, In (EvEnd c) evs ->
         valid w c = Normal false /\ In (Conn c) (activeConnections w).
Proof. exact (acquire_trace _ w eq_refl). Qed.

Lemma acquire_closes_only_dead_witness :
  In (EvEnd 7)
    (trace (snd (getPoolConnection
                   (Sample.with_dead [7] [Conn 1; Conn 7] 8))))
  /\ valid (Sample.with_dead [7] [Conn 1; Conn 7] 8) 7 = Normal false.
Proof.
  destruct (acquire_closes_only_dead (Sample.with_dead [7] [Conn 1; Conn 7] 8))
    as [evs [Ht Hends]].
  assert (Hin : In (EvEnd 7) evs).
  { cbn in Ht. rewrite <- Ht. right. left. reflexivity. }
  split.
  - rewrite Ht. apply in_or_app. right. exact Hin.
  - exact (proj1 (Hends 7 Hin)).
Defined.

(** X14.  Every request closes the connection it opened, once, after
    using it, and makes no other call: the outside calls of [/health] are
    those of [getConnection] followed, when a connection was obtained, by
    one ping and one [end()] on it; those of [/students] are those of
    [getConnection] followed by the fixed query and one [end()].  This is
    so whether the ping or the query succeeds or fails. *)
Theorem handlers_close_what_they_open (w : World) :
  trace (snd (health w))
  = trace (snd (getConnection w))
    ++ match fst (getConnection w) with
       | Normal c => [EvPing c; EvEnd c]
       | Throw _ => []
       end
  /\ trace (snd (students w))
     = trace (snd (getConnection w))
       ++ match fst (getConnection w) with
          | Normal c => [EvQuery c students_sql; EvEnd c]
          | Throw _ => []
          end.
Proof.
  split.
  - unfold health, try_catch, bind.
    destruct (getConnection w) as [[c|e] w1]; cbn [fst snd].
    + unfold try_finally, ping.
      destruct (driver_ping w1 c) as [e|]; rewrite end_ignoring_errors_eq;
        cbn [fst snd ret]; branches; cbn [snd trace set_valid log];
        now rewrite <- app_assoc.
    + branches; cbn; now rewrite app_nil_r.
  - unfold students.
    destruct (getConnection w) as [[c|e] w1]; cbn [fst snd].
    + unfold try_finally. rewrite students_try_eq. cbn [students_finally].
      rewrite end_ignoring_errors_eq.
      cbn [snd trace set_valid log]; now rewrite <- app_assoc.
    + unfold try_finally. rewrite students_catch_eq. cbn.
      now rewrite app_nil_r.
Qed.

(* ================================================================== *)
(** * Startup and shutdown                                              *)
(* ================================================================== *)

(** X15.  The promise chain of the connection test at startup never
    rejects, whatever the identity service and the driver do.
    It requests one token, closes the connection it opened (swallowing an
    exception of [end()]), and leaves the idle pool as it found it. *)
Theorem startup_never_fails (w : World) :
  fst (startup w) = Normal tt
  /\ trace (snd (startup w))
     = trace (snd (getConnection w))
       ++ match fst (getConnection w) with
          | Normal c => [EvEnd c]
          | Throw _ => []
          end
  /\ token_calls (snd (startup w)) = S (token_calls w)
  /\ activeConnections (snd (startup w)) = activeConnections w.
Proof.
  unfold startup, try_catch, bind.
  pose proof (getConnection_token_calls w) as Ht.
  pose proof (preserves_getConnection activeConnections
                (fun _ _ _ => eq_refl) (fun _ => eq_refl)
                (fun _ _ => eq_refl) w) as Hp.
  destruct (getConnection w) as [[c|e] w1]; cbn [fst snd] in *.
  - rewrite end_ignoring_errors_eq. cbn [fst snd].
    split; [reflexivity|]. split; [reflexivity|].
    rewrite token_calls_set_valid, token_calls_log. cbn.
    split; [lia | exact Hp].
  - cbn. rewrite app_nil_r. auto.
Qed.

Lemma close_on_signal_eq ep v w :
  close_on_signal ep v w
  = match v with
    | Conn c =>
        (match end_throws w c with
         | Some _ => Resolved
         | None => ep c
         end,
         set_valid c (Normal false) (log (EvEnd c) w))
    | Undefined | Null => (Resolved, w)
    end.
Proof.
  destruct v as [| |c]; try reflexivity.
  unfold close_on_signal, conn_end. destruct (end_throws w c); reflexivity.
Qed.

Lemma map_close_on_signal_trace ep l : forall w,
  trace (snd (map_close_on_signal ep l w))
  = trace w ++ map EvEnd (connections_of l)
  /\ activeConnections (snd (map_close_on_signal ep l w))
     = activeConnections w.
Proof.
  induction l as [|v l IH]; intros w; cbn [map_close_on_signal].
  - cbn. now rewrite app_nil_r.
  - rewrite close_on_signal_eq.
    destruct v as [| |c];
      match goal with
      | |- context [map_close_on_signal ep l ?w1] =>
          destruct (IH w1) as [Ht Hp];
          destruct (map_close_on_signal ep l w1) as [ps w2]
      end; cbn [snd connections_of map] in *.
    + auto.
    + auto.
    + rewrite Ht, Hp. cbn. now rewrite <- app_assoc.
Qed.

Lemma map_close_on_signal_settled ep l (throws : ConnId -> option Error) :
  forall w,
  (forall c, end_throws w c = throws c) ->
  forallb is_resolved (fst (map_close_on_signal ep l w))
  = forallb (fun c => match throws c with
                      | Some _ => true
                      | None => is_resolved (ep c)
                      end)
      (connections_of l).
Proof.
  induction l as [|v l IH]; intros w Hw; cbn [map_close_on_signal].
  - reflexivity.
  - rewrite close_on_signal_eq.
    destruct v as [| |c];
      match goal with
      | |- context [map_close_on_signal ep l ?w1] =>
          specialize (IH w1);
          destruct (map_close_on_signal ep l w1) as [ps w2]
      end; cbn [fst connections_of forallb] in *.
    + now apply IH.
    + now apply IH.
    + rewrite IH by exact Hw. rewrite Hw.
      destruct (throws c); reflexivity.
Qed.

Lemma in_connections_of c l : In c (connections_of l) <-> In (Conn c) l.
Proof.
  induction l as [|v l IH]; [reflexivity|].
  destruct v as [| |d]; cbn.
  - rewrite IH. split; [now right | intros [H|H]; [discriminate | exact H]].
  - rewrite IH. split; [now right | intros [H|H]; [discriminate | exact H]].
  - rewrite IH. split; intros [H|H]; auto; left; congruence.
Qed.

(** X16.  On [SIGTERM] or [SIGINT], [end()] is called once for each
    element of the pool that is a connection object, in pool order, and
    nothing else is called: a connection stored twice is ended twice, and
    an [end()] that throws or a [null] element does not stop the elements
    after it from being closed.  The pool array itself is not emptied. *)
Theorem on_signal_ends_every_pool_entry
    (end_promise : ConnId -> Settled) (w : World) :
  trace (snd (on_signal end_promise w))
  = trace w ++ map EvEnd (connections_of (activeConnections w))
  /\ activeConnections (snd (on_signal end_promise w)) = activeConnections w.
Proof.
  unfold on_signal.
  destruct (map_close_on_signal_trace end_promise (activeConnections w) w)
    as [Ht Hp].
  destruct (map_close_on_signal end_promise (activeConnections w) w)
    as [ps w']; cbn [snd] in *.
  split; [exact Ht | exact Hp].
Qed.

(** A connection that was released twice is ended twice. *)
Example on_signal_ends_duplicates :
  trace (snd (on_signal (fun _ => Resolved)
                (snd (releaseConnection (Conn 1)
                        (snd (releaseConnection (Conn 1)
                                (Sample.healthy [Conn 0] 2)))))))
  = [EvIsValid 1; EvIsValid 1; EvEnd 0; EvEnd 1; EvEnd 1].
Proof. reflexivity. Qed.

(** X17.  The signal handler calls [process.exit(0)] exactly when every
    idle connection's [end()] either threw or returned a promise that
    resolves; it never exits with another status.  One rejected [end()]
    promise is enough for [process.exit] not to be called by the handler. *)
Theorem on_signal_exits_when_all_closed
    (end_promise : ConnId -> Settled) (w : World) :
  (fst (on_signal end_promise w) = Some 0%Z
   \/ fst (on_signal end_promise w) = None)
  /\ (fst (on_signal end_promise w) = Some 0%Z
      <-> forall c, In (Conn c) (activeConnections w) ->
            end_throws w c = None -> end_promise c = Resolved).
Proof.
  unfold on_signal.
  pose proof (map_close_on_signal_settled end_promise (activeConnections w)
                (end_throws w) w (fun _ => eq_refl)) as Hs.
  destruct (map_close_on_signal end_promise (activeConnections w) w)
    as [ps w']; cbn [fst] in *.
  rewrite Hs. clear Hs.
  destruct (forallb _ (connections_of (activeConnections w))) eqn:Hall.
  - split; [now left|]. split; [|reflexivity]. intros _ c Hc Hthrows.
    rewrite forallb_forall in Hall.
    specialize (Hall c (proj2 (in_connections_of c _) Hc)).
    rewrite Hthrows in Hall. destruct (end_promise c); [reflexivity|].
    discriminate.
  - split; [now right|]. split; [discriminate|]. intros H. exfalso.
    assert (Htrue : forallb
              (fun c => match end_throws w c with
                        | Some _ => true
                        | None => is_resolved (end_promise c)
                        end)
              (connections_of (activeConnections w)) = true).
    { apply forallb_forall. intros c Hc.
      destruct (end_throws w c) eqn:Hthrows; [reflexivity|].
      rewrite (H c (proj1 (in_connections_of c _) Hc) Hthrows). reflexivity. }
    congruence.
Qed.

Lemma on_signal_exits_when_all_closed_witness :
  fst (on_signal (fun _ => Resolved) (Sample.healthy [Conn 1; Conn 2] 3))
  = Some 0%Z
  /\ fst (on_signal
            (fun c => if Nat.eqb c 2
                      then Rejected (new_Error "socket hang up")
                      else Resolved)
            (Sample.healthy [Conn 1; Conn 2] 3))
     <> Some 0%Z.
Proof.
  destruct (on_signal_exits_when_all_closed
              (fun _ => Resolved) (Sample.healthy [Conn 1; Conn 2] 3))
    as [_ [_ Hexit]].
  destruct (on_signal_exits_when_all_closed
              (fun c => if Nat.eqb c 2
                        then Rejected (new_Error "socket hang up")
                        else Resolved)
              (Sample.healthy [Conn 1; Conn 2] 3))
    as [_ [Hstay _]].
  split.
  - apply Hexit. reflexivity.
  - intros H.
    specialize (Hstay H 2 (or_intror (or_introl eq_refl)) eq_refl).
    discriminate Hstay.
Defined.

(** The handler run on a pool holding a dead connection whose [end()]
    throws, a live one and a stray [null]. *)
Example on_signal_trace :
  trace (snd (on_signal (fun _ => Resolved)
                (Sample.with_dead [7] [Conn 7; Null; Conn 1] 8)))
  = [EvEnd 7; EvEnd 1]
  /\ fst (on_signal (fun _ => Resolved)
            (Sample.with_dead [7] [Conn 7; Null; Conn 1] 8))
     = Some 0%Z.
Proof. split; reflexivity. Qed.
